(** * wcka: closure of Concurrent Kleene Algebra terms

    A shallow embedding of [wcka.py].  Python classes become one inductive
    type with a class tag, method dispatch becomes pattern matching on the
    receiver, exceptions become an error result, dictionaries keyed by terms
    become [gmap]s keyed by the printed form (the hash and the equality of a
    term are those of its printed form), and sets of terms become lists
    without repetition whose iteration order is a parameter. *)

From stdpp Require Import gmap strings.
From Stdlib Require Import String Ascii List Arith Lia Bool Permutation.
Import ListNotations.
Local Open Scope string_scope.
Local Open Scope list_scope.
Local Open Scope nat_scope.
#[local] Arguments String.append !s1 s2 : simpl nomatch.

(** ** Terms *)

(** [ClosedTerm] and its concrete subclasses.  [Variable] (a [Term] that is
    not a [ClosedTerm]) only occurs in the rendering of a linear system and
    is represented by its class tag alone, which [bracket] needs. *)
Inductive Term : Type :=
| Zero : Term
| One : Term
| Primitive (letter : string) : Term
| Choice (left right : Term) : Term
| Sequential (left right : Term) : Term
| Parallel (left right : Term) : Term
| Star (beneath : Term) : Term.

Inductive Class : Type :=
| CZero | COne | CPrimitive | CVariable | CStar | CSequential | CParallel | CChoice.

Definition class_of (t : Term) : Class :=
  match t with
  | Zero => CZero
  | One => COne
  | Primitive _ => CPrimitive
  | Choice _ _ => CChoice
  | Sequential _ _ => CSequential
  | Parallel _ _ => CParallel
  | Star _ => CStar
  end.

(** Exceptions the code can raise, and [OutOfFuel] for a recursion that the
    model cut short. *)
Inductive error : Type :=
| TypeError | KeyError | StopIteration | AttributeError | OutOfFuel.

Inductive res (A : Type) : Type :=
| Ok (a : A)
| Raise (e : error).
Arguments Ok {A} a.
Arguments Raise {A} e.

Definition bind {A B : Type} (m : res A) (k : A -> res B) : res B :=
  match m with
  | Ok a => k a
  | Raise e => Raise e
  end.

Notation "'let*' x ':=' m 'in' k" := (bind m (fun x => k))
  (at level 10, x pattern, m at level 100, k at level 200).

Definition lookup_or_raise {A : Type} (o : option A) : res A :=
  match o with
  | Some a => Ok a
  | None => Raise KeyError
  end.

(** ** Printing, equality and containment *)

(** [order.index] of [precedes] in [Term.bracket]. *)
Definition order_index (c : Class) : nat :=
  match c with
  | CZero => 0
  | COne => 1
  | CPrimitive => 2
  | CVariable => 3
  | CStar => 4
  | CSequential => 5
  | CParallel => 6
  | CChoice => 7
  end.

Definition precedes (a b : Class) : bool := order_index a <=? order_index b.

(** [Term.bracket], with the printer passed in so that [str] stays
    structurally recursive. *)
Definition bracket (str : Term -> string) (self : Term) (next_op : Class) : string :=
  if precedes (class_of self) next_op then str self
  else "(" +:+ str self +:+ ")".

Definition operator (c : Class) : string :=
  match c with
  | CChoice => " + "
  | CSequential => ""
  | CParallel => "‖"
  | _ => ""
  end.

(** [__str__] of every class. *)
Fixpoint str (t : Term) : string :=
  match t with
  | Zero => "0"
  | One => "1"
  | Primitive letter => letter
  | Choice l r => bracket str l CChoice +:+ operator CChoice +:+ bracket str r CChoice
  | Sequential l r =>
      bracket str l CSequential +:+ operator CSequential +:+ bracket str r CSequential
  | Parallel l r =>
      bracket str l CParallel +:+ operator CParallel +:+ bracket str r CParallel
  | Star b => bracket str b CStar +:+ "*"
  end.

(** [Term.__eq__]. *)
Definition term_eq (self other : Term) : bool := String.eqb (str self) (str other).

(** [__contains__]: [contains self term] is Python's [term in self]. *)
Fixpoint contains (self term : Term) : bool :=
  match self with
  | Choice l r => term_eq self term || contains l term || contains r term
  | Parallel l r =>
      match term with
      | Parallel ol or_ =>
          (contains l ol && contains r or_) || (contains r ol && contains l or_)
      | _ => term_eq self term
      end
  | Star b =>
      match term with
      | One => true
      | _ => if contains b term then true else term_eq self term
      end
  | _ => term_eq self term
  end.

(** ** Smart constructors *)

(** [Term.__add__]. *)
Definition term_add (self other : Term) : Term :=
  match other with
  | Zero => self
  | _ =>
      match self with
      | Zero => other
      | _ =>
          if contains self other then self
          else if contains other self then other
          else Choice self other
      end
  end.

(** The test shared by [One.__add__] and [Sequential.__add__]: the side of
    a sequential composition [l r] that is the star of the other side. *)
Definition star_side (l r : Term) : option Term :=
  match l with
  | Star lb =>
      if term_eq lb r then Some l
      else match r with
           | Star rb => if term_eq rb l then Some r else None
           | _ => None
           end
  | _ =>
      match r with
      | Star rb => if term_eq rb l then Some r else None
      | _ => None
      end
  end.

(** [self + other]: dispatch to [One.__add__], [Sequential.__add__] or
    [Term.__add__]. *)
Definition add (self other : Term) : Term :=
  match self with
  | One =>
      match other with
      | Sequential l r =>
          match star_side l r with
          | Some s => s
          | None => term_add self other
          end
      | _ => term_add self other
      end
  | Sequential l r =>
      match other with
      | One =>
          match star_side l r with
          | Some s => s
          | None => term_add self other
          end
      | _ => term_add self other
      end
  | _ => term_add self other
  end.

(** [Term.__pow__]: [self ** other]. *)
Definition pow (self other : Term) : Term :=
  match other with
  | One => self
  | _ =>
      match self with
      | One => other
      | _ =>
          match other with
          | Zero => Zero
          | _ =>
              match self with
              | Zero => Zero
              | _ => Sequential self other
              end
          end
      end
  end.

(** [Term.__floordiv__]: [self // other]. *)
Definition floordiv (self other : Term) : Term :=
  match other with
  | One => self
  | _ =>
      match self with
      | One => other
      | _ =>
          match other with
          | Zero => Zero
          | _ =>
              match self with
              | Zero => Zero
              | _ => Parallel self other
              end
          end
      end
  end.

(** [Term.star] and its override [Star.star]. *)
Definition star (self : Term) : Term :=
  match self with
  | One | Zero => One
  | Star _ => self
  | _ => Star self
  end.

(** The builtin [sum(iterable, start)]. *)
Definition sum (iterable : list Term) (start : Term) : Term :=
  fold_left add iterable start.

Example str_ex1 :
  str (Choice (Parallel (Primitive "a") (Primitive "b"))
         (Sequential (Star (Choice (Primitive "a") One)) (Primitive "c")))
  = "a‖b + (a + 1)*c".
Proof. reflexivity. Qed.

(** ** Structural predicates and measures *)

(** [nullable] of every class. *)
Fixpoint nullable (t : Term) : bool :=
  match t with
  | Zero => false
  | One => true
  | Primitive _ => false
  | Choice l r => nullable l || nullable r
  | Sequential l r => nullable l && nullable r
  | Parallel l r => nullable l && nullable r
  | Star _ => true
  end.

(** [is_trivial] of every class.  [Zero.is_trivial] is declared without a
    [self] parameter, so calling it on an instance raises [TypeError].  The
    [and] and [or] of the binary classes evaluate their right operand only
    when the left one does not decide. *)
Fixpoint is_trivial (t : Term) : res bool :=
  match t with
  | Zero => Raise TypeError
  | One => Ok false
  | Primitive _ => Ok false
  | Choice l r =>
      let* a := is_trivial l in
      if a then is_trivial r else Ok false
  | Sequential l r =>
      let* a := is_trivial l in
      if a then Ok true else is_trivial r
  | Parallel l r =>
      let* a := is_trivial l in
      if a then Ok true else is_trivial r
  | Star _ => Ok false
  end.

(** [nontrivial_width] of every class, over the [width] of the children. *)
Definition nontrivial_width (width : Term -> res nat) (self : Term) : res nat :=
  match self with
  | Zero => Ok 0
  | One => Ok 0
  | Primitive _ => Ok 1
  | Choice l r =>
      let* a := width l in
      let* b := width r in
      Ok (Nat.max a b)
  | Sequential l r =>
      let* a := width l in
      let* b := width r in
      Ok (Nat.max a b)
  | Parallel l r =>
      let* a := width l in
      let* b := width r in
      Ok (a + b)
  | Star b => width b
  end.

(** [ClosedTerm.width]. *)
Fixpoint width (self : Term) : res nat :=
  let* trivial := is_trivial self in
  if trivial then Ok 0 else nontrivial_width width self.

(** ** Sets of terms and of pairs of terms

    A Python set is a list of its elements without repetition for the
    equality of the elements; the element kept for a printed form is the
    one inserted first. *)
Section PySet.
Context {A : Type} (eqb : A -> A -> bool).

(** [x in s]. *)
Definition mem (x : A) (s : list A) : bool := existsb (eqb x) s.

(** [s.add(x)]. *)
Definition set_add (s : list A) (x : A) : list A :=
  if mem x s then s else s ++ [x].

(** [s1 | s2] and [s1 |= s2]. *)
Definition set_union (s1 s2 : list A) : list A := fold_left set_add s2 s1.

(** A set display or comprehension over the items [l]. *)
Definition set_of (l : list A) : list A := set_union [] l.

(** [s1 - s2]. *)
Definition set_diff (s1 s2 : list A) : list A :=
  filter (fun x => negb (mem x s2)) s1.
End PySet.

(** Equality of tuples of two terms. *)
Definition pair_eq (p q : Term * Term) : bool :=
  term_eq (fst p) (fst q) && term_eq (snd p) (snd q).

Abbreviation tmem := (mem term_eq).
Abbreviation tset_union := (set_union term_eq).
Abbreviation tset_of := (set_of term_eq).
Abbreviation tset_diff := (set_diff term_eq).
Abbreviation pset_union := (set_union pair_eq).
Abbreviation pset_of := (set_of pair_eq).

(** A linear system: [symbols], [matrix] and [vector]; the dictionaries
    are keyed by the printed forms of the symbols. *)
Record LinearSystem : Type := mkLinearSystem {
  symbols : list Term;
  matrix : gmap (string * string) Term;
  vector : gmap string Term
}.

(** [self.matrix[s1, s2]], [self.vector[s]] and [solution[s]]. *)
Definition matrix_at (m : gmap (string * string) Term) (s1 s2 : Term) : res Term :=
  lookup_or_raise (m !! (str s1, str s2)).

Definition dict_at (d : gmap string Term) (s : Term) : res Term :=
  lookup_or_raise (d !! str s).

(** [sum((f(v) for v in items), start)], where computing an item may raise. *)
Definition sum_gen {A : Type} (f : A -> res (option Term)) (items : list A)
    (start : Term) : res Term :=
  fold_left
    (fun acc v =>
       let* a := acc in
       let* x := f v in
       match x with
       | Some y => Ok (add a y)
       | None => Ok a
       end)
    items (Ok start).

(** [{key(v): f(v) for v in items}]. *)
Definition dict_comp {A K : Type} `{Countable K} (key : A -> K)
    (f : A -> res Term) (items : list A) : res (gmap K Term) :=
  fold_left
    (fun acc v =>
       let* d := acc in
       let* x := f v in
       Ok (<[key v := x]> d))
    items (Ok ∅).

(** ** Splicings, remainders, preclosure, linear systems and closure *)

Section Iteration.

(** The order in which a set of terms, and a set of pairs, is iterated. *)
Variable iterT : list Term -> list Term.
Variable iterP : list (Term * Term) -> list (Term * Term).

(** [ssplicings] of every class. *)
Fixpoint ssplicings (self : Term) : list (Term * Term) :=
  match self with
  | Zero => []
  | One => pset_of [(self, self)]
  | Primitive _ => pset_of [(self, One); (One, self)]
  | Choice l r => pset_union (ssplicings l) (ssplicings r)
  | Sequential l r =>
      pset_union
        (pset_of (map (fun '(g, h) => (pow l g, h)) (iterP (ssplicings r))))
        (pset_of (map (fun '(g, h) => (g, pow h r)) (iterP (ssplicings l))))
  | Parallel l r =>
      pset_of
        (flat_map
           (fun '(g1, h1) =>
              map (fun '(g2, h2) => (floordiv g1 g2, floordiv h1 h2))
                (iterP (ssplicings r)))
           (iterP (ssplicings l)))
  | Star b =>
      pset_union
        (pset_of (map (fun '(g, h) => (pow self g, pow h self)) (iterP (ssplicings b))))
        (pset_of [(One, One)])
  end.

(** [nontrivial_psplicings] of every class, over the [psplicings] of the
    children. *)
Definition nontrivial_psplicings (psplicings : Term -> list (Term * Term))
    (self : Term) : list (Term * Term) :=
  match self with
  | Zero => []
  | One => []
  | Primitive _ => []
  | Choice l r => pset_union (psplicings l) (psplicings r)
  | Sequential l r =>
      pset_union
        (pset_of (filter (fun _ => nullable r) (iterP (psplicings l))))
        (pset_of (filter (fun _ => nullable l) (iterP (psplicings r))))
  | Parallel l r =>
      pset_of
        (flat_map
           (fun '(g1, h1) =>
              map (fun '(g2, h2) => (floordiv g1 g2, floordiv h1 h2))
                (iterP (psplicings r)))
           (iterP (psplicings l)))
  | Star b => psplicings b
  end.

(** [ClosedTerm.psplicings]. *)
Fixpoint psplicings (self : Term) : list (Term * Term) :=
  pset_union (nontrivial_psplicings psplicings self)
    (pset_of [(self, One); (One, self)]).

(** The [while todo] loop of [Term.remainders], over the recursive call. *)
Fixpoint remainders_loop (rec : Term -> list Term -> res (list Term))
    (todo : list (Term * Term)) (remainders : list Term) : res (list Term) :=
  match todo with
  | [] => Ok remainders
  | (_, expand) :: todo' =>
      if negb (tmem expand remainders)
      then
        let* more := rec expand remainders in
        remainders_loop rec todo' (tset_union remainders more)
      else remainders_loop rec todo' remainders
  end.

(** [Term.remainders]; [fuel] bounds the depth of the recursion. *)
Fixpoint remainders_fuel (fuel : nat) (self : Term) (seen : list Term)
    : res (list Term) :=
  match fuel with
  | 0 => Raise OutOfFuel
  | S fuel' =>
      let todo := ssplicings self in
      let remainders := tset_union [self] seen in
      remainders_loop (remainders_fuel fuel') (iterP todo) remainders
  end.

(** A bound on the number of remainders of a term. *)
Fixpoint remainders_bound (t : Term) : nat :=
  match t with
  | Zero => 1
  | One => 1
  | Primitive _ => 2
  | Choice l r => S (remainders_bound l + remainders_bound r)
  | Sequential l r => S (remainders_bound l + remainders_bound r)
  | Parallel l r => S (remainders_bound l * remainders_bound r)
  | Star b => S (S (remainders_bound b))
  end.

(** [self.remainders()], with the default [seen]: the default set is
    never mutated, so every such call starts from the empty set. *)
Definition remainders (self : Term) : res (list Term) :=
  remainders_fuel (remainders_bound self) self [].

(** [Parallel.preclosure] of [Parallel(left, right)], over the [closure]
    of narrower terms. *)
Definition preclosure (closure : Term -> res Term) (left right : Term) : res Term :=
  let self := Parallel left right in
  sum_gen
    (fun '(g, h) =>
       let* gw := width g in
       let* sw := width self in
       if gw <? sw
       then
         let* hw := width h in
         let* sw' := width self in
         if hw <? sw'
         then
           let* cg := closure g in
           let* ch := closure h in
           Ok (Some (floordiv cg ch))
         else Ok None
       else Ok None)
    (iterP (psplicings self)) (floordiv left right).

(** [.left] and [.right] of a symbol. *)
Definition sides (symbol : Term) : res (Term * Term) :=
  match symbol with
  | Choice l r | Sequential l r | Parallel l r => Ok (l, r)
  | _ => Raise AttributeError
  end.

(** [Parallel.linear_system] of [Parallel(left, right)]. *)
Definition linear_system (closure : Term -> res Term) (left right : Term)
    : res LinearSystem :=
  let* lrem := remainders left in
  let* rrem := remainders right in
  let symbols :=
    tset_of
      (flat_map (fun lprime => map (fun rprime => Parallel lprime rprime) (iterT rrem))
         (iterT lrem)) in
  let* vector :=
    dict_comp str
      (fun symbol => let* (l, r) := sides symbol in Ok (floordiv l r))
      (iterT symbols) in
  let* matrix :=
    dict_comp (fun '(s1, s2) => (str s1, str s2))
      (fun '(s1, s2) =>
         let* (l1, r1) := sides s1 in
         sum_gen
           (fun '((g1, h1), (g2, h2)) =>
              if term_eq (Parallel h1 h2) s2
              then let* p := preclosure closure g1 g2 in Ok (Some p)
              else Ok None)
           (flat_map (fun gh1 => map (fun gh2 => (gh1, gh2)) (iterP (ssplicings r1)))
              (iterP (ssplicings l1)))
           Zero)
      (flat_map (fun s1 => map (fun s2 => (s1, s2)) (iterT symbols)) (iterT symbols)) in
  Ok (mkLinearSystem symbols matrix vector).

(** [LinearSystem.solve]; [fuel] bounds the depth of the recursion. *)
Fixpoint solve_fuel (fuel : nat) (self : LinearSystem) : res (gmap string Term) :=
  match fuel with
  | 0 => Raise OutOfFuel
  | S fuel' =>
      match iterT (symbols self) with
      | [] => Raise StopIteration
      | elim :: _ =>
          let reuse := tset_diff (symbols self) [elim] in
          match reuse with
          | [] =>
              let* aee := matrix_at (matrix self) elim elim in
              let* be := dict_at (vector self) elim in
              Ok {[ str elim := pow (star aee) be ]}
          | _ :: _ =>
              let* subvector :=
                dict_comp str
                  (fun v =>
                     let* bv := dict_at (vector self) v in
                     let* ave := matrix_at (matrix self) v elim in
                     let* be := dict_at (vector self) elim in
                     Ok (add bv (pow ave be)))
                  (iterT reuse) in
              let* submatrix :=
                dict_comp (fun '(v1, v2) => (str v1, str v2))
                  (fun '(v1, v2) =>
                     let* a1e := matrix_at (matrix self) v1 elim in
                     let* aee := matrix_at (matrix self) elim elim in
                     let* ae2 := matrix_at (matrix self) elim v2 in
                     let* a12 := matrix_at (matrix self) v1 v2 in
                     Ok (add (pow a1e (pow (star aee) ae2)) a12))
                  (flat_map (fun v1 => map (fun v2 => (v1, v2)) (iterT reuse))
                     (iterT reuse)) in
              let subsystem := mkLinearSystem reuse submatrix subvector in
              let* solution := solve_fuel fuel' subsystem in
              let* aee := matrix_at (matrix self) elim elim in
              let* be := dict_at (vector self) elim in
              let* total :=
                sum_gen
                  (fun v =>
                     let* aev := matrix_at (matrix self) elim v in
                     let* xv := dict_at solution v in
                     Ok (Some (pow aev xv)))
                  (iterT reuse) be in
              Ok (<[str elim := pow (star aee) total]> solution)
          end
      end
  end.

(** [self.solve()]: every recursive call removes a symbol, and the call
    on no symbol raises at [next(iter(self.symbols))]. *)
Definition solve (self : LinearSystem) : res (gmap string Term) :=
  solve_fuel (S (length (symbols self))) self.

(** [closure] of every class, over the [closure] used by the
    preclosures of a parallel term. *)
Definition closure_step (closure : Term -> res Term) : Term -> res Term :=
  fix go (self : Term) : res Term :=
    match self with
    | Zero => Ok self
    | One => Ok self
    | Primitive _ => Ok self
    | Choice l r =>
        let* a := go l in
        let* b := go r in
        Ok (add a b)
    | Sequential l r =>
        let* a := go l in
        let* b := go r in
        Ok (pow a b)
    | Parallel l r =>
        let* system := linear_system closure l r in
        let* solution := solve system in
        dict_at solution self
    | Star b =>
        let* a := go b in
        Ok (star a)
    end.

(** [closure], where [fuel] bounds the nesting of closures of parallel
    terms inside preclosures. *)
Fixpoint closure (fuel : nat) : Term -> res Term :=
  match fuel with
  | 0 => fun _ => Raise OutOfFuel
  | S fuel' => closure_step (closure fuel')
  end.

End Iteration.

(** ** Facts about strings and printed forms *)

Lemma append_assoc (a b c : string) : (a +:+ b) +:+ c = a +:+ (b +:+ c).
Proof. induction a as [|x a IH]; cbn; [reflexivity | now rewrite IH]. Qed.

Lemma append_nil_r (a : string) : a +:+ "" = a.
Proof. induction a as [|x a IH]; cbn; [reflexivity | now rewrite IH]. Qed.

Lemma length_append (a b : string) :
  String.length (a +:+ b) = String.length a + String.length b.
Proof. induction a as [|x a IH]; cbn; [reflexivity | now rewrite IH]. Qed.

Lemma term_eq_refl (t : Term) : term_eq t t = true.
Proof. apply String.eqb_refl. Qed.

Lemma term_eq_true (a b : Term) : term_eq a b = true <-> str a = str b.
Proof. apply String.eqb_eq. Qed.

Lemma term_eq_false (a b : Term) : term_eq a b = false <-> str a <> str b.
Proof. apply String.eqb_neq. Qed.

Lemma length_bracket (t : Term) (c : Class) :
  String.length (str t) <= String.length (bracket str t c).
Proof.
  unfold bracket. destruct (precedes (class_of t) c); [lia |].
  rewrite !length_append. cbn. lia.
Qed.

Lemma str_Sequential (l r : Term) :
  str (Sequential l r) = bracket str l CSequential +:+ bracket str r CSequential.
Proof. reflexivity. Qed.

Lemma str_Choice (l r : Term) :
  str (Choice l r) = bracket str l CChoice +:+ " + " +:+ bracket str r CChoice.
Proof. reflexivity. Qed.

Lemma str_Star (b : Term) : str (Star b) = bracket str b CStar +:+ "*".
Proof. reflexivity. Qed.

Lemma bracket_Sequential_self (l r : Term) :
  bracket str (Sequential l r) CSequential = str (Sequential l r).
Proof. reflexivity. Qed.

(** Containment is reflexive. *)
Lemma contains_refl (t : Term) : contains t t = true.
Proof.
  induction t; cbn [contains]; rewrite ?term_eq_refl; try reflexivity.
  - now rewrite IHt1, IHt2.
  - now destruct (contains t (Star t)).
Qed.

(** ** The sequential constructor *)

Lemma str_Sequential_assoc (a b c : Term) :
  str (Sequential (Sequential a b) c) = str (Sequential a (Sequential b c)).
Proof.
  rewrite (str_Sequential (Sequential a b) c), (str_Sequential a (Sequential b c)).
  rewrite !bracket_Sequential_self, !str_Sequential.
  apply append_assoc.
Qed.

(** C10: the smart sequential constructor is associative up to the
    equality of terms, which compares printed forms: [(a ** b) ** c] and
    [a ** (b ** c)] are equal terms for all [a], [b] and [c]. *)
Theorem pow_assoc_eq (a b c : Term) :
  term_eq (pow (pow a b) c) (pow a (pow b c)) = true.
Proof.
  apply term_eq_true.
  destruct a, b, c; cbn [pow]; try reflexivity; apply str_Sequential_assoc.
Qed.

(** ** Zero inside terms *)

(** Terms that callers can build: [Zero()], [One()], [Primitive(letter)]
    and the four operators. *)
Inductive built : Term -> Prop :=
| built_Zero : built Zero
| built_One : built One
| built_Primitive (letter : string) : built (Primitive letter)
| built_add (a b : Term) : built a -> built b -> built (add a b)
| built_pow (a b : Term) : built a -> built b -> built (pow a b)
| built_floordiv (a b : Term) : built a -> built b -> built (floordiv a b)
| built_star (a : Term) : built a -> built (star a).

Fixpoint proper_subterms (t : Term) : list Term :=
  match t with
  | Zero | One | Primitive _ => []
  | Choice l r | Sequential l r | Parallel l r =>
      l :: r :: proper_subterms l ++ proper_subterms r
  | Star b => b :: proper_subterms b
  end.

(** No [Zero] in the term, not even the term itself. *)
Fixpoint zero_free (t : Term) : bool :=
  match t with
  | Zero => false
  | One | Primitive _ => true
  | Choice l r | Sequential l r | Parallel l r => zero_free l && zero_free r
  | Star b => zero_free b
  end.

Lemma zero_free_subterms (t : Term) :
  zero_free t = true <-> ~ In Zero (t :: proper_subterms t).
Proof.
  induction t; cbn [zero_free proper_subterms]; rewrite ?andb_true_iff.
  - split; [discriminate | intros H; exfalso; apply H; now left].
  - split; [intros _ [H | []]; discriminate | reflexivity].
  - split; [intros _ [H | []]; discriminate | reflexivity].
  - rewrite IHt1, IHt2. cbn [In]. rewrite !in_app_iff. split.
    + intros [H1 H2] [H | [H | [H | [H | H]]]]; try discriminate;
        [apply H1 | apply H2 | apply H1 | apply H2]; cbn [In]; auto.
    + intros H; split; intros [H' | H']; apply H; auto.
  - rewrite IHt1, IHt2. cbn [In]. rewrite !in_app_iff. split.
    + intros [H1 H2] [H | [H | [H | [H | H]]]]; try discriminate;
        [apply H1 | apply H2 | apply H1 | apply H2]; cbn [In]; auto.
    + intros H; split; intros [H' | H']; apply H; auto.
  - rewrite IHt1, IHt2. cbn [In]. rewrite !in_app_iff. split.
    + intros [H1 H2] [H | [H | [H | [H | H]]]]; try discriminate;
        [apply H1 | apply H2 | apply H1 | apply H2]; cbn [In]; auto.
    + intros H; split; intros [H' | H']; apply H; auto.
  - rewrite IHt. cbn [In]. split.
    + intros H1 [H | H]; [discriminate | now apply H1].
    + intros H H'. apply H. now right.
Qed.

(** [Zero] is at most the whole term. *)
Definition zero_at_top (t : Term) : Prop := t = Zero \/ zero_free t = true.

Lemma zero_at_top_subterms (t : Term) :
  zero_at_top t -> ~ In Zero (proper_subterms t).
Proof.
  intros [-> | H]; [intros [] |].
  apply zero_free_subterms in H. intros H'. apply H. now right.
Qed.

Lemma term_add_cases (a b : Term) :
  term_add a b = a \/ term_add a b = b \/
  (term_add a b = Choice a b /\ a <> Zero /\ b <> Zero).
Proof.
  unfold term_add.
  destruct b; auto;
    destruct a; auto;
    match goal with
    | |- context [if contains ?x ?y then _ else _] => destruct (contains x y); auto
    end;
    match goal with
    | |- context [if contains ?x ?y then _ else _] => destruct (contains x y); auto
    end;
    right; right; repeat split; discriminate.
Qed.

Lemma star_side_cases (l r s : Term) : star_side l r = Some s -> s = l \/ s = r.
Proof.
  unfold star_side. intros H.
  repeat (match type of H with
          | context [match ?x with _ => _ end] => destruct x
          end; try discriminate);
    inversion H; auto.
Qed.

Lemma zero_at_top_term_add (a b : Term) :
  zero_at_top a -> zero_at_top b -> zero_at_top (term_add a b).
Proof.
  intros Ha Hb.
  destruct (term_add_cases a b) as [-> | [-> | (-> & Na & Nb)]]; auto.
  right. cbn. destruct Ha as [? | ->]; [contradiction |].
  destruct Hb as [? | ->]; [contradiction | reflexivity].
Qed.

Lemma zero_at_top_star_side (l r s : Term) :
  zero_at_top (Sequential l r) -> star_side l r = Some s -> zero_at_top s.
Proof.
  intros [H | H] Hs; [discriminate |].
  cbn in H. apply andb_true_iff in H as [Hl Hr].
  right. destruct (star_side_cases _ _ _ Hs) as [-> | ->]; assumption.
Qed.

Lemma zero_at_top_add (a b : Term) :
  zero_at_top a -> zero_at_top b -> zero_at_top (add a b).
Proof.
  intros Ha Hb. unfold add.
  destruct a; try (apply zero_at_top_term_add; assumption).
  - destruct b; try (apply zero_at_top_term_add; assumption).
    destruct (star_side b1 b2) eqn:E; [| apply zero_at_top_term_add; assumption].
    eapply zero_at_top_star_side; eassumption.
  - destruct b; try (apply zero_at_top_term_add; assumption).
    destruct (star_side a1 a2) eqn:E; [| apply zero_at_top_term_add; assumption].
    eapply zero_at_top_star_side; eassumption.
Qed.

Lemma zero_at_top_pow (a b : Term) :
  zero_at_top a -> zero_at_top b -> zero_at_top (pow a b).
Proof.
  intros [-> | Ha] [-> | Hb]; unfold zero_at_top.
  - left; reflexivity.
  - left; destruct b; reflexivity.
  - left; destruct a; reflexivity.
  - right. destruct a, b; cbn in *; try discriminate; try reflexivity;
      rewrite ?Ha, ?Hb; try reflexivity; try assumption.
Qed.

Lemma zero_at_top_floordiv (a b : Term) :
  zero_at_top a -> zero_at_top b -> zero_at_top (floordiv a b).
Proof.
  intros [-> | Ha] [-> | Hb]; unfold zero_at_top.
  - left; reflexivity.
  - left; destruct b; reflexivity.
  - left; destruct a; reflexivity.
  - right. destruct a, b; cbn in *; try discriminate; try reflexivity;
      rewrite ?Ha, ?Hb; try reflexivity; try assumption.
Qed.

Lemma zero_at_top_star (a : Term) : zero_at_top a -> zero_at_top (star a).
Proof.
  intros [-> | Ha]; right; [reflexivity |].
  destruct a; cbn in *; try discriminate; try reflexivity; assumption.
Qed.

Lemma built_zero_at_top (t : Term) : built t -> zero_at_top t.
Proof.
  induction 1.
  - now left.
  - now right.
  - now right.
  - now apply zero_at_top_add.
  - now apply zero_at_top_pow.
  - now apply zero_at_top_floordiv.
  - now apply zero_at_top_star.
Qed.

Lemma add_Zero_r (a : Term) : add a Zero = a.
Proof. destruct a; reflexivity. Qed.

Lemma add_Zero_l (a : Term) : add Zero a = a.
Proof. destruct a; reflexivity. Qed.

Lemma pow_Zero (a : Term) : pow a Zero = Zero /\ pow Zero a = Zero.
Proof. destruct a; split; reflexivity. Qed.

Lemma floordiv_Zero (a : Term) : floordiv a Zero = Zero /\ floordiv Zero a = Zero.
Proof. destruct a; split; reflexivity. Qed.

(** C9: a term built only with [Zero()], [One()], [Primitive(letter)], [+],
    [**], [//] and [star()] has no [Zero] among its proper subterms: a sum
    with [Zero] is the other operand, a sequential or parallel composition
    with [Zero] is [Zero] itself, and the star of [Zero] is [One]. *)
Theorem built_no_inner_Zero (t : Term) (Hbuilt : built t) :
  ~ In Zero (proper_subterms t) /\
  add t Zero = t /\ add Zero t = t /\
  pow t Zero = Zero /\ pow Zero t = Zero /\
  floordiv t Zero = Zero /\ floordiv Zero t = Zero /\
  star Zero = One.
Proof.
  split; [apply zero_at_top_subterms, built_zero_at_top, Hbuilt |].
  repeat split; try apply add_Zero_r; try apply add_Zero_l;
    try apply pow_Zero; apply floordiv_Zero.
Qed.

Lemma built_no_inner_Zero_witness :
  ~ In Zero
      (proper_subterms
         (add (pow (Primitive "a") Zero)
            (floordiv (star Zero) (pow (Primitive "b") (star (Primitive "c")))))).
Proof.
  apply (built_no_inner_Zero
           (add (pow (Primitive "a") Zero)
              (floordiv (star Zero) (pow (Primitive "b") (star (Primitive "c")))))).
  repeat constructor.
Defined.

(** ** The star identities of the sum *)

Definition is_Star (t : Term) : bool :=
  match t with
  | Star _ => true
  | _ => false
  end.

(** C6, as the code has it: for every term [a] that is not itself a star,
    [One + a ** a.star()], [One + a.star() ** a], [a ** a.star() + One] and
    [a.star() ** a + One] are all equal to [a.star()]. *)
Theorem star_choice_identities (a : Term) (Ha : is_Star a = false) :
  term_eq (add One (pow a (star a))) (star a) = true /\
  term_eq (add One (pow (star a) a)) (star a) = true /\
  term_eq (add (pow a (star a)) One) (star a) = true /\
  term_eq (add (pow (star a) a) One) (star a) = true.
Proof.
  destruct a; try discriminate; cbn [star pow add star_side];
    rewrite ?term_eq_refl; cbn [term_add contains];
    rewrite ?term_eq_refl; repeat split; reflexivity.
Qed.

Lemma star_choice_identities_witness :
  term_eq
    (add One (pow (Choice (Primitive "a") (Primitive "b"))
                (star (Choice (Primitive "a") (Primitive "b")))))
    (star (Choice (Primitive "a") (Primitive "b"))) = true.
Proof.
  apply (star_choice_identities (Choice (Primitive "a") (Primitive "b"))).
  reflexivity.
Defined.

(** C6 fails when [a] is a star: then [a.star()] is [a] and [a ** a] is
    not a sequence of a star and its argument. *)
Lemma star_choice_identities_counterexample :
  let a := star (Primitive "a") in
  str (add One (pow a (star a))) = "1 + a*a*" /\
  str (star a) = "a*" /\
  term_eq (add One (pow a (star a))) (star a) = false /\
  term_eq (add One (pow (star a) a)) (star a) = false /\
  term_eq (add (pow a (star a)) One) (star a) = false /\
  term_eq (add (pow (star a) a) One) (star a) = false.
Proof. repeat split; vm_compute; reflexivity. Qed.

(** The restriction is needed: for a star [a] none of the four holds. *)
Lemma star_choice_identities_Star (b : Term) :
  term_eq (add One (pow (Star b) (star (Star b)))) (star (Star b)) = false /\
  term_eq (add One (pow (star (Star b)) (Star b))) (star (Star b)) = false /\
  term_eq (add (pow (Star b) (star (Star b))) One) (star (Star b)) = false /\
  term_eq (add (pow (star (Star b)) (Star b)) One) (star (Star b)) = false.
Proof.
  assert (Hb : term_eq b (Star b) = false).
  { apply term_eq_false. intros C. apply (f_equal String.length) in C.
    rewrite str_Star, length_append in C.
    pose proof (length_bracket b CStar). cbn in C. lia. }
  assert (Hs : star_side (Star b) (Star b) = None).
  { cbn [star_side]. now rewrite Hb. }
  cbn [star pow add]. rewrite Hs. clear Hs Hb.
  remember (Star b) as a eqn:Ea.
  assert (La : 1 <= String.length (str a)).
  { subst a. rewrite str_Star, length_append. cbn. lia. }
  assert (Ls : String.length (str (Sequential a a)) = 2 * String.length (str a)).
  { rewrite str_Sequential.
    replace (bracket str a CSequential) with (str a) by (subst a; reflexivity).
    rewrite length_append. lia. }
  assert (H1 : term_eq One (Sequential a a) = false).
  { apply term_eq_false. intros C. apply (f_equal String.length) in C.
    rewrite Ls in C. cbn [str String.length] in C. lia. }
  assert (H2 : term_eq (Sequential a a) One = false).
  { unfold term_eq in *. now rewrite String.eqb_sym. }
  assert (H3 : term_eq (Choice One (Sequential a a)) a = false).
  { apply term_eq_false. intros C. apply (f_equal String.length) in C.
    rewrite str_Choice in C.
    change (bracket str (Sequential a a) CChoice) with (str (Sequential a a)) in C.
    rewrite !length_append, Ls in C. cbn in C. lia. }
  assert (H4 : term_eq (Choice (Sequential a a) One) a = false).
  { apply term_eq_false. intros C. apply (f_equal String.length) in C.
    rewrite str_Choice in C.
    change (bracket str (Sequential a a) CChoice) with (str (Sequential a a)) in C.
    rewrite !length_append, Ls in C. cbn in C. lia. }
  cbn [term_add contains]. rewrite H1, H2.
  repeat split; assumption.
Qed.

(** ** Width and triviality of Zero *)

(** C3 does not hold of the code: [Zero.is_trivial] takes no [self], so
    [Zero().is_trivial()] and with it [Zero().width()] raise [TypeError]. *)
Theorem width_Zero_raises :
  is_trivial Zero = Raise TypeError /\ width Zero = Raise TypeError.
Proof. split; reflexivity. Qed.

(** ** Nullability and the sum with One *)













(** ** Facts about sets *)

Section PySetFacts.
Context {A K : Type} (eqb : A -> A -> bool) (key : A -> K).
Hypothesis eqb_key : forall x y, eqb x y = true <-> key x = key y.

Lemma mem_key (x : A) (s : list A) : mem eqb x s = true <-> In (key x) (map key s).
Proof.
  unfold mem. rewrite existsb_exists, in_map_iff. split.
  - intros (y & Hy & E). exists y. split; [symmetry; now apply eqb_key | assumption].
  - intros (y & E & Hy). exists y. split; [assumption | apply eqb_key; now symmetry].
Qed.

Lemma mem_In (x : A) (s : list A) : In x s -> mem eqb x s = true.
Proof. intros H. apply mem_key. now apply in_map. Qed.

Lemma mem_false_key (x : A) (s : list A) :
  mem eqb x s = false <-> ~ In (key x) (map key s).
Proof.
  rewrite <- mem_key. destruct (mem eqb x s); split; congruence.
Qed.

Lemma set_add_In (s : list A) (x y : A) : In y (set_add eqb s x) -> In y s \/ y = x.
Proof.
  unfold set_add. destruct (mem eqb x s); [auto |].
  rewrite in_app_iff. cbn. intuition.
Qed.

Lemma set_add_incl (s : list A) (x : A) : incl s (set_add eqb s x).
Proof.
  unfold set_add. destruct (mem eqb x s); [apply incl_refl | now apply incl_appl].
Qed.

Lemma set_add_mem (s : list A) (x y : A) :
  mem eqb y (set_add eqb s x) = mem eqb y s || eqb y x.
Proof.
  unfold set_add. destruct (mem eqb x s) eqn:E.
  - destruct (eqb y x) eqn:E'; [| now rewrite orb_false_r].
    rewrite orb_true_r. apply eqb_key in E'. apply mem_key. rewrite E'.
    now apply mem_key.
  - unfold mem. rewrite existsb_app. cbn. now rewrite orb_false_r.
Qed.

Lemma set_add_NoDup (s : list A) (x : A) :
  NoDup (map key s) -> NoDup (map key (set_add eqb s x)).
Proof.
  intros H. unfold set_add. destruct (mem eqb x s) eqn:E; [assumption |].
  rewrite map_app. cbn. apply mem_false_key in E.
  apply Permutation_NoDup with (l := key x :: map key s).
  - apply Permutation_cons_append.
  - now constructor.
Qed.

Lemma set_add_length (s : list A) (x : A) :
  length (set_add eqb s x) = if mem eqb x s then length s else S (length s).
Proof.
  unfold set_add. destruct (mem eqb x s); [reflexivity |].
  rewrite length_app. cbn. lia.
Qed.

Lemma set_union_In (s1 s2 : list A) (y : A) :
  In y (set_union eqb s1 s2) -> In y s1 \/ In y s2.
Proof.
  unfold set_union. revert s1. induction s2 as [|x s2 IH]; intros s1 H; cbn in *.
  - auto.
  - apply IH in H as [H | H]; [| auto].
    apply set_add_In in H as [H | H]; auto.
Qed.

Lemma set_union_incl (s1 s2 : list A) : incl s1 (set_union eqb s1 s2).
Proof.
  unfold set_union. revert s1. induction s2 as [|x s2 IH]; intros s1; cbn.
  - apply incl_refl.
  - eapply incl_tran; [apply set_add_incl | apply IH].
Qed.

Lemma set_union_mem (s1 s2 : list A) (y : A) :
  mem eqb y (set_union eqb s1 s2) = mem eqb y s1 || mem eqb y s2.
Proof.
  unfold set_union. revert s1. induction s2 as [|x s2 IH]; intros s1; cbn [fold_left].
  - now rewrite orb_false_r.
  - rewrite IH, set_add_mem. unfold mem. cbn [existsb]. now rewrite orb_assoc.
Qed.

Lemma set_union_NoDup (s1 s2 : list A) :
  NoDup (map key s1) -> NoDup (map key (set_union eqb s1 s2)).
Proof.
  unfold set_union. revert s1. induction s2 as [|x s2 IH]; intros s1 H; cbn [fold_left].
  - assumption.
  - apply IH. now apply set_add_NoDup.
Qed.

Lemma set_union_length (s1 s2 : list A) : length s1 <= length (set_union eqb s1 s2).
Proof.
  unfold set_union. revert s1. induction s2 as [|x s2 IH]; intros s1; cbn [fold_left].
  - lia.
  - specialize (IH (set_add eqb s1 x)). rewrite set_add_length in IH.
    destruct (mem eqb x s1); lia.
Qed.

Lemma set_of_In (l : list A) (y : A) : In y (set_of eqb l) -> In y l.
Proof. intros H. apply set_union_In in H as [[] | H]. assumption. Qed.

Lemma set_of_mem (l : list A) (y : A) : mem eqb y (set_of eqb l) = mem eqb y l.
Proof. unfold set_of. now rewrite set_union_mem. Qed.

Lemma set_of_NoDup (l : list A) : NoDup (map key (set_of eqb l)).
Proof. apply set_union_NoDup. constructor. Qed.

Lemma set_diff_In (s1 s2 : list A) (y : A) :
  In y (set_diff eqb s1 s2) <-> In y s1 /\ mem eqb y s2 = false.
Proof. unfold set_diff. rewrite filter_In, negb_true_iff. reflexivity. Qed.

Lemma set_diff_NoDup (s1 s2 : list A) :
  NoDup (map key s1) -> NoDup (map key (set_diff eqb s1 s2)).
Proof.
  unfold set_diff. induction s1 as [|x s1 IH]; cbn; intros H; [constructor |].
  inversion H as [|? ? Hx Hs]; subst.
  destruct (negb (mem eqb x s2)); [| now apply IH].
  cbn. constructor; [| now apply IH].
  intros C. apply Hx. apply in_map_iff in C as (y & E & Hy).
  apply filter_In in Hy as [Hy _]. rewrite <- E. now apply in_map.
Qed.

Lemma set_union_fresh (a s : list A) :
  NoDup (map key (a ++ s)) -> set_union eqb a s = a ++ s.
Proof.
  unfold set_union. revert a. induction s as [|y s IH]; intros a H; cbn [fold_left].
  - now rewrite app_nil_r.
  - assert (E : set_add eqb a y = a ++ [y]).
    { unfold set_add. rewrite map_app in H. cbn [map] in H.
      apply NoDup_remove_2 in H.
      destruct (mem eqb y a) eqn:M; [| reflexivity].
      exfalso. apply H, in_or_app. left. now apply mem_key. }
    rewrite E, IH; rewrite <- app_assoc; [reflexivity | exact H].
Qed.

Lemma mem_incl (x : A) (s1 s2 : list A) :
  incl s1 s2 -> mem eqb x s1 = true -> mem eqb x s2 = true.
Proof.
  intros Hi H. apply mem_key. apply mem_key in H.
  apply in_map_iff in H as (y & E & Hy). rewrite <- E. apply in_map. now apply Hi.
Qed.

End PySetFacts.

Lemma term_eq_key (x y : Term) : term_eq x y = true <-> str x = str y.
Proof. apply term_eq_true. Qed.

Definition pair_key (p : Term * Term) : string * string := (str (fst p), str (snd p)).

Lemma pair_eq_key (p q : Term * Term) : pair_eq p q = true <-> pair_key p = pair_key q.
Proof.
  unfold pair_eq, pair_key. rewrite andb_true_iff, !term_eq_true.
  split; [intros [-> ->]; reflexivity | intros H; inversion H; auto].
Qed.

(** Iteration in the order of insertion. *)
Definition id_iterT (l : list Term) : list Term := l.
Definition id_iterP (l : list (Term * Term)) : list (Term * Term) := l.

Lemma id_iterT_perm (l : list Term) : Permutation (id_iterT l) l.
Proof. apply Permutation_refl. Defined.

Lemma id_iterP_perm (l : list (Term * Term)) : Permutation (id_iterP l) l.
Proof. apply Permutation_refl. Defined.

(** ** Parallel splicings *)

Lemma floordiv_One_r (t : Term) : floordiv t One = t.
Proof. reflexivity. Qed.

Lemma floordiv_One_l (t : Term) : floordiv One t = t.
Proof. destruct t; reflexivity. Qed.

(** A primitive, a sequence of two terms that are not nullable, and the
    choices and stars of such terms: every parallel splicing of such a term
    has [One] on one side and, on the other, a term of the same kind that
    the term contains. *)
Fixpoint psplit_atom (t : Term) : bool :=
  match t with
  | Primitive _ => true
  | Sequential l r => negb (nullable l) && negb (nullable r)
  | Choice l r => psplit_atom l && psplit_atom r
  | Star b => psplit_atom b
  | _ => false
  end.

(** Terms in which no parallel splicing crosses a sequential composition
    or splits an operand of a parallel composition into two terms other
    than [One]. *)
Fixpoint psplit_shallow (t : Term) : bool :=
  match t with
  | Zero | One | Primitive _ => true
  | Choice l r => psplit_shallow l && psplit_shallow r
  | Sequential l r => negb (nullable l) && negb (nullable r)
  | Parallel l r => psplit_atom l && psplit_atom r
  | Star b => psplit_shallow b
  end.

Lemma filter_const_false {A : Type} (l : list A) : List.filter (fun _ => false) l = [].
Proof. induction l; [reflexivity | assumption]. Qed.

Section SplicingFacts.
Variable iterP : list (Term * Term) -> list (Term * Term).
Hypothesis iterP_perm : forall l, Permutation (iterP l) l.

Lemma iterP_In (l : list (Term * Term)) (p : Term * Term) : In p (iterP l) <-> In p l.
Proof.
  split; apply Permutation_in; [apply iterP_perm | apply Permutation_sym, iterP_perm].
Qed.

Lemma psplicings_unfold (t : Term) :
  psplicings iterP t =
  pset_union (nontrivial_psplicings iterP (psplicings iterP) t)
    (pset_of [(t, One); (One, t)]).
Proof. destruct t; reflexivity. Qed.

Lemma psplicings_In (t : Term) (p : Term * Term) :
  In p (psplicings iterP t) ->
  In p (nontrivial_psplicings iterP (psplicings iterP) t) \/ p = (t, One) \/ p = (One, t).
Proof.
  rewrite psplicings_unfold. intros H.
  apply set_union_In in H as [H | H]; [now left | right].
  apply set_of_In in H. cbn in H. intuition.
Qed.

Lemma psplicings_trivial (t : Term) :
  mem pair_eq (t, One) (psplicings iterP t) = true /\
  mem pair_eq (One, t) (psplicings iterP t) = true.
Proof.
  rewrite psplicings_unfold, !(set_union_mem pair_eq pair_key pair_eq_key).
  rewrite !(set_of_mem pair_eq pair_key pair_eq_key).
  split; apply orb_true_iff; right; apply (mem_In pair_eq pair_key pair_eq_key);
    cbn; auto.
Qed.

Lemma psplit_atom_In (t : Term) (p : Term * Term) :
  psplit_atom t = true -> In p (psplicings iterP t) ->
  exists x, (p = (x, One) \/ p = (One, x)) /\
            contains t x = true /\ psplit_atom x = true.
Proof.
  induction t; intros Ha H; try discriminate Ha;
    apply psplicings_In in H as [H | H];
    try (eexists; split; [exact H | split; [apply contains_refl | exact Ha]]);
    cbn [nontrivial_psplicings] in H; try contradiction;
    cbn [psplit_atom] in Ha.
  - apply andb_true_iff in Ha as [H1 H2].
    apply set_union_In in H as [H | H].
    + destruct (IHt1 H1 H) as (x & Hx & Cx & Ax). exists x.
      split; [exact Hx |]. split; [| exact Ax].
      cbn [contains]. rewrite Cx. now rewrite orb_true_r.
    + destruct (IHt2 H2 H) as (x & Hx & Cx & Ax). exists x.
      split; [exact Hx |]. split; [| exact Ax].
      cbn [contains]. rewrite Cx. now rewrite orb_true_r.
  - exfalso. apply andb_true_iff in Ha as [H1 H2].
    apply negb_true_iff in H1, H2. rewrite H1, H2 in H.
    apply set_union_In in H as [H | H]; apply set_of_In in H;
      rewrite filter_const_false in H; assumption.
  - destruct (IHt Ha H) as (x & Hx & Cx & Ax). exists x.
    split; [exact Hx |]. split; [| exact Ax].
    cbn [contains]. rewrite Cx. now destruct x.
Qed.

Lemma psplit_atom_Parallel (l r : Term) :
  psplit_atom l = true -> psplit_atom r = true ->
  floordiv l r = Parallel l r /\ floordiv r l = Parallel r l.
Proof. destruct l, r; try discriminate; intros _ _; split; reflexivity. Qed.

Lemma contains_Parallel_swap (l r : Term) :
  contains (Parallel l r) (Parallel l r) = true /\
  contains (Parallel l r) (Parallel r l) = true.
Proof.
  cbn [contains]. rewrite !contains_refl. split; [reflexivity | apply orb_true_r].
Qed.

Lemma psplit_shallow_contained (t : Term) :
  psplit_shallow t = true ->
  forall g h, In (g, h) (psplicings iterP t) -> contains t (floordiv g h) = true.
Proof.
  induction t; intros Hs g h H;
    apply psplicings_In in H as [H | [H | H]];
    try (inversion H; subst; rewrite ?floordiv_One_l, ?floordiv_One_r;
         apply contains_refl);
    cbn [nontrivial_psplicings] in H; try contradiction.
  - cbn in Hs. apply andb_true_iff in Hs as [H1 H2].
    cbn [contains]. apply set_union_In in H as [H | H].
    + rewrite (IHt1 H1 _ _ H). now rewrite orb_true_r.
    + rewrite (IHt2 H2 _ _ H). now rewrite orb_true_r.
  - exfalso. cbn in Hs. apply andb_true_iff in Hs as [H1 H2].
    apply negb_true_iff in H1, H2. rewrite H1, H2 in H.
    apply set_union_In in H as [H | H]; apply set_of_In in H;
      rewrite filter_const_false in H; assumption.
  - cbn in Hs. apply andb_true_iff in Hs as [H1 H2].
    apply set_of_In in H. apply in_flat_map in H as ([g1 h1] & Hl & H).
    apply in_map_iff in H as ([g2 h2] & E & Hr).
    apply (proj1 (iterP_In _ _)) in Hl. apply (proj1 (iterP_In _ _)) in Hr.
    apply (psplit_atom_In _ _ H1) in Hl as (x & Hx & Cx & Ax).
    apply (psplit_atom_In _ _ H2) in Hr as (y & Hy & Cy & Ay).
    destruct (psplit_atom_Parallel _ _ Ax Ay) as [E1 E2].
    assert (C1 : contains (Parallel t1 t2) (Parallel x y) = true).
    { cbn [contains]. now rewrite Cx, Cy. }
    assert (C2 : contains (Parallel t1 t2) (Parallel y x) = true).
    { cbn [contains]. rewrite Cx, Cy. apply orb_true_r. }
    inversion E; subst g h.
    destruct Hx as [Hx | Hx], Hy as [Hy | Hy]; inversion Hx; inversion Hy; subst;
      rewrite ?floordiv_One_l, ?floordiv_One_r, ?E1, ?E2; assumption.
  - cbn in Hs. specialize (IHt Hs _ _ H).
    cbn [contains]. rewrite IHt. now destruct (floordiv g h).
Qed.

(** C5, as the code has it: the parallel splicings of every term [t]
    contain [(t, One)] and [(One, t)], and [t] contains [t // One] and
    [One // t]; every pair [(g, h)] of the parallel splicings of [t] has
    [g // h] contained in [t] when [t] is made of [Zero], [One], primitives
    and sequences of two terms that are not nullable, combined by choice, by
    star, and by the parallel composition of two operands that are such
    primitives or sequences, or choices and stars of such operands. *)
Theorem psplicings_contained (t : Term) :
  mem pair_eq (t, One) (psplicings iterP t) = true /\
  mem pair_eq (One, t) (psplicings iterP t) = true /\
  contains t (floordiv t One) = true /\
  contains t (floordiv One t) = true /\
  (psplit_shallow t = true ->
   forall g h, In (g, h) (psplicings iterP t) -> contains t (floordiv g h) = true).
Proof.
  destruct (psplicings_trivial t) as [H1 H2].
  rewrite floordiv_One_l, floordiv_One_r, contains_refl.
  repeat split; try assumption.
  apply psplit_shallow_contained.
Qed.

End SplicingFacts.

Lemma psplicings_contained_witness :
  let a := Primitive "a" in
  let b := Primitive "b" in
  let c := Primitive "c" in
  let t := Parallel (Choice a (Sequential b c)) (Star c) in
  In (c, Sequential b c) (psplicings id_iterP t) /\
  contains t (floordiv c (Sequential b c)) = true.
Proof.
  intros a b c t.
  assert (Hin : In (c, Sequential b c) (psplicings id_iterP t)).
  { vm_compute. tauto. }
  split; [exact Hin |].
  apply (psplicings_contained id_iterP id_iterP_perm t); [reflexivity | exact Hin].
Defined.

(** C5 fails when a splicing crosses a sequence: [(a*, One)] is a parallel
    splicing of [a*b*], and [a*] is not contained in [a*b*], and likewise
    [(a, One)] for [ab*]; it fails for [(a‖c, b)], a splicing of
    [(a‖b)‖c]; and it fails when an operand of a parallel composition has
    [One] as a splicing: [(b, One)] is a splicing of [(1 + a)‖b], which does
    not contain [b]. *)
Lemma psplicings_contained_counterexample :
  let a := Primitive "a" in
  let b := Primitive "b" in
  let c := Primitive "c" in
  let t := pow (star a) (star b) in
  let u := floordiv (floordiv a b) c in
  let v := pow a (star b) in
  let w := floordiv (add One a) b in
  In (star a, One) (psplicings id_iterP t) /\
  contains t (floordiv (star a) One) = false /\
  In (floordiv a c, b) (psplicings id_iterP u) /\
  contains u (floordiv (floordiv a c) b) = false /\
  In (a, One) (psplicings id_iterP v) /\
  contains v (floordiv a One) = false /\
  In (b, One) (psplicings id_iterP w) /\
  contains w (floordiv b One) = false.
Proof. vm_compute. tauto. Qed.

(** ** Remainders *)

(** A list that holds every term that [remainders] can reach from [t]. *)
Fixpoint remainder_space (t : Term) : list Term :=
  match t with
  | Zero => [t]
  | One => [t]
  | Primitive _ => [t; One]
  | Choice l r => t :: remainder_space l ++ remainder_space r
  | Sequential l r =>
      t :: map (fun h => pow h r) (remainder_space l) ++ remainder_space r
  | Parallel l r =>
      t :: flat_map (fun h1 => map (fun h2 => floordiv h1 h2) (remainder_space r))
             (remainder_space l)
  | Star b => t :: One :: map (fun h => pow h t) (remainder_space b)
  end.

Lemma length_flat_map_const {A B : Type} (f : A -> list B) (l : list A) (n : nat) :
  (forall a, length (f a) = n) -> length (flat_map f l) = length l * n.
Proof.
  intros H. induction l as [|a l IH]; cbn; [reflexivity |].
  rewrite length_app, H, IH. lia.
Qed.

Lemma length_remainder_space (t : Term) :
  length (remainder_space t) = remainders_bound t.
Proof.
  induction t; cbn [remainder_space remainders_bound length];
    rewrite ?length_app, ?length_map; try lia.
  rewrite (length_flat_map_const _ _ (remainders_bound t2)).
  - now rewrite IHt1.
  - intros a. now rewrite length_map.
Qed.

Lemma remainder_space_self (t : Term) : In t (remainder_space t).
Proof. destruct t; cbn; auto. Qed.

Section RemainderFacts.
Variable iterP : list (Term * Term) -> list (Term * Term).
Hypothesis iterP_perm : forall l, Permutation (iterP l) l.

(** [v] is the right component of a sequential splicing of [u]. *)
Definition step (u v : Term) : Prop := exists g, In (g, v) (ssplicings iterP u).

Lemma step_Zero (v : Term) : ~ step Zero v.
Proof. intros [g []]. Qed.

Lemma step_One (v : Term) : step One v -> v = One.
Proof. intros [g [H | []]]. now inversion H. Qed.

Lemma step_Primitive (letter : string) (v : Term) :
  step (Primitive letter) v -> v = One \/ v = Primitive letter.
Proof.
  intros [g H]. apply set_of_In in H. destruct H as [H | [H | []]]; inversion H; auto.
Qed.

Lemma step_Choice (l r v : Term) : step (Choice l r) v -> step l v \/ step r v.
Proof.
  intros [g H]. cbn [ssplicings] in H.
  apply set_union_In in H as [H | H]; [left | right]; now exists g.
Qed.

Lemma step_Sequential (l r v : Term) :
  step (Sequential l r) v -> step r v \/ exists h, step l h /\ v = pow h r.
Proof.
  intros [g H]. cbn [ssplicings] in H.
  apply set_union_In in H as [H | H]; apply set_of_In in H;
    apply in_map_iff in H as ([g' h'] & E & H);
    apply (proj1 (iterP_In iterP iterP_perm _ _)) in H; inversion E; subst.
  - left. now exists g'.
  - right. exists h'. split; [now exists g | reflexivity].
Qed.

Lemma step_Parallel (l r v : Term) :
  step (Parallel l r) v -> exists h1 h2, step l h1 /\ step r h2 /\ v = floordiv h1 h2.
Proof.
  intros [g H]. cbn [ssplicings] in H. apply set_of_In in H.
  apply in_flat_map in H as ([g1 h1] & Hl & H).
  apply in_map_iff in H as ([g2 h2] & E & Hr).
  apply (proj1 (iterP_In iterP iterP_perm _ _)) in Hl.
  apply (proj1 (iterP_In iterP iterP_perm _ _)) in Hr.
  inversion E; subst. exists h1, h2. repeat split; [now exists g1 | now exists g2].
Qed.

Lemma step_Star (b v : Term) :
  step (Star b) v -> v = One \/ exists h, step b h /\ v = pow h (Star b).
Proof.
  intros [g H]. cbn [ssplicings] in H.
  apply set_union_In in H as [H | H]; apply set_of_In in H.
  - apply in_map_iff in H as ([g' h'] & E & H).
    apply (proj1 (iterP_In iterP iterP_perm _ _)) in H. inversion E; subst.
    right. exists h'. split; [now exists g' | reflexivity].
  - destruct H as [H | []]. inversion H. now left.
Qed.

Lemma step_pow (h r v : Term) :
  step (pow h r) v -> step r v \/ exists h', step h h' /\ v = pow h' r.
Proof.
  intros H. destruct h, r; cbn [pow] in H;
    try (now apply step_Zero in H);
    try (now apply step_Sequential in H);
    try (left; exact H);
    try (right; exists v; split; [exact H | reflexivity]).
Qed.

Lemma step_floordiv (h1 h2 v : Term) :
  step (floordiv h1 h2) v ->
  exists h1' h2',
    (h1' = h1 \/ step h1 h1') /\ (h2' = h2 \/ step h2 h2') /\ v = floordiv h1' h2'.
Proof.
  intros H. destruct h1, h2; cbn [floordiv] in H;
    first
      [ now apply step_Zero in H
      | solve [exists v, One; repeat split; [right; exact H | left; reflexivity]]
      | solve [exists One, v; rewrite floordiv_One_l;
               repeat split; [left; reflexivity | right; exact H]]
      | solve [apply step_Parallel in H as (h1' & h2' & S1 & S2 & E);
               exists h1', h2'; repeat split; auto] ].
Qed.

(** The remainder space of a term is closed under taking the right
    component of a sequential splicing. *)
Lemma remainder_space_closed (t u v : Term) :
  In u (remainder_space t) -> step u v -> In v (remainder_space t).
Proof.
  revert u v. induction t; intros u v Hu Hs; cbn [remainder_space] in *.
  - destruct Hu as [<- | []]. now apply step_Zero in Hs.
  - destruct Hu as [<- | []]. apply step_One in Hs. now left.
  - destruct Hu as [<- | [<- | []]].
    + apply step_Primitive in Hs as [-> | ->]; cbn [In]; auto.
    + apply step_One in Hs. subst. cbn [In]; auto.
  - right. rewrite in_app_iff.
    destruct Hu as [<- | Hu]; [| apply in_app_iff in Hu as [Hu | Hu]].
    + apply step_Choice in Hs as [Hs | Hs]; [left | right].
      * eapply IHt1; [apply remainder_space_self | exact Hs].
      * eapply IHt2; [apply remainder_space_self | exact Hs].
    + left. eapply IHt1; eassumption.
    + right. eapply IHt2; eassumption.
  - right. rewrite in_app_iff.
    assert (Hseq : forall h, In h (remainder_space t1) -> step (pow h t2) v ->
                   In v (map (fun h => pow h t2) (remainder_space t1)) \/
                   In v (remainder_space t2)).
    { intros h Hh Hp. apply step_pow in Hp as [Hp | (h' & Hp & ->)].
      - right. eapply IHt2; [apply remainder_space_self | exact Hp].
      - left. apply (in_map (fun h => pow h t2)). eapply IHt1; eassumption. }
    destruct Hu as [<- | Hu]; [| apply in_app_iff in Hu as [Hu | Hu]].
    + apply step_Sequential in Hs as [Hs | (h & Hs & ->)].
      * right. eapply IHt2; [apply remainder_space_self | exact Hs].
      * left. apply (in_map (fun h => pow h t2)).
        eapply IHt1; [apply remainder_space_self | exact Hs].
    + apply in_map_iff in Hu as (h & <- & Hh). eapply Hseq; eassumption.
    + right. eapply IHt2; eassumption.
  - right. apply in_flat_map.
    assert (Hpar : forall h1 h2 h1' h2',
              In h1 (remainder_space t1) -> In h2 (remainder_space t2) ->
              h1' = h1 \/ step h1 h1' -> h2' = h2 \/ step h2 h2' ->
              exists x, In x (remainder_space t1) /\
                        In (floordiv h1' h2')
                          (map (fun y => floordiv x y) (remainder_space t2))).
    { intros h1 h2 h1' h2' H1 H2 S1 S2. exists h1'. split.
      - destruct S1 as [-> | S1]; [assumption | eapply IHt1; eassumption].
      - apply (in_map (fun y => floordiv h1' y)).
        destruct S2 as [-> | S2]; [assumption | eapply IHt2; eassumption]. }
    destruct Hu as [<- | Hu].
    + apply step_Parallel in Hs as (h1 & h2 & S1 & S2 & ->).
      apply (Hpar t1 t2); auto using remainder_space_self.
    + apply in_flat_map in Hu as (h1 & H1 & Hu).
      apply in_map_iff in Hu as (h2 & <- & H2).
      apply step_floordiv in Hs as (h1' & h2' & S1 & S2 & ->).
      now apply (Hpar h1 h2).
  - assert (Hstar : step (Star t) v ->
                    In v (Star t :: One :: map (fun h => pow h (Star t)) (remainder_space t))).
    { intros Hp. apply step_Star in Hp as [-> | (h & Hp & ->)].
      - right; now left.
      - right; right. apply (in_map (fun h => pow h (Star t))).
        eapply IHt; [apply remainder_space_self | exact Hp]. }
    destruct Hu as [<- | [<- | Hu]].
    + now apply Hstar.
    + apply step_One in Hs. subst. right; now left.
    + apply in_map_iff in Hu as (h & <- & Hh).
      apply step_pow in Hs as [Hs | (h' & Hs & ->)].
      * now apply Hstar.
      * right; right. apply (in_map (fun h => pow h (Star t))). eapply IHt; eassumption.
Qed.

(** Every right component of a sequential splicing of [u] is in [R]. *)
Definition closed_in (u : Term) (R : list Term) : Prop :=
  forall g v, In (g, v) (ssplicings iterP u) -> tmem v R = true.

(** Every element of [R] is in [seen] or has its splicings back in [R]. *)
Definition expanded (seen R : list Term) : Prop :=
  forall u, In u R -> In u seen \/ closed_in u R.

Lemma tmem_incl (v : Term) (R R' : list Term) :
  incl R R' -> tmem v R = true -> tmem v R' = true.
Proof. apply (mem_incl term_eq str term_eq_key). Qed.

Lemma closed_in_incl (u : Term) (R R' : list Term) :
  incl R R' -> closed_in u R -> closed_in u R'.
Proof. intros Hi H g v Hv. eapply tmem_incl; [exact Hi | eapply H; exact Hv]. Qed.

Section Universe.
Variable U : list Term.
Hypothesis U_closed : forall u v, In u U -> step u v -> In v U.

Lemma length_in_universe (R : list Term) :
  incl R U -> NoDup (map str R) -> length R <= length U.
Proof. intros Hi Hn. apply NoDup_incl_length; [eapply NoDup_map_inv; exact Hn | exact Hi]. Qed.

(** What a call of [remainders] with enough fuel returns. *)
Definition remainders_fuel_spec (n : nat) : Prop :=
  forall self seen,
    In self U -> incl seen U -> NoDup (map str seen) ->
    length U < n + length (tset_union [self] seen) ->
    exists R,
      remainders_fuel iterP n self seen = Ok R /\
      incl R U /\ NoDup (map str R) /\
      incl (tset_union [self] seen) R /\
      closed_in self R /\ expanded seen R.

Lemma remainders_loop_spec (n : nat) (IH : remainders_fuel_spec n) :
  forall todo rem,
    (forall p, In p todo -> In (snd p) U) ->
    incl rem U -> NoDup (map str rem) -> length U < S n + length rem ->
    exists R,
      remainders_loop (remainders_fuel iterP n) todo rem = Ok R /\
      incl R U /\ NoDup (map str R) /\ incl rem R /\
      expanded rem R /\
      (forall p, In p todo -> tmem (snd p) R = true).
Proof.
  induction todo as [|[g expand] todo IHt]; intros rem Htodo Hi Hn Hl;
    cbn [remainders_loop].
  - exists rem. repeat split; auto using incl_refl;
      try (intros u Hu; now left); try (intros p []).
  - assert (Htodo' : forall p, In p todo -> In (snd p) U)
      by (intros p Hp; apply Htodo; now right).
    destruct (tmem expand rem) eqn:M; cbn [negb].
    + destruct (IHt rem Htodo' Hi Hn Hl) as (R & E & HU & HN & HI & HX & HT).
      exists R. repeat split; auto.
      intros p [<- | Hp]; [| now apply HT].
      eapply tmem_incl; [exact HI | exact M].
    + assert (Hfresh : tset_union [expand] rem = expand :: rem).
      { apply (set_union_fresh term_eq str term_eq_key). cbn [app map].
        constructor; [| exact Hn].
        now apply (mem_false_key term_eq str term_eq_key). }
      destruct (IH expand rem) as (more & E & HU & HN & HI & HC & HX); auto.
      { apply (Htodo (g, expand)). now left. }
      { rewrite Hfresh. cbn [length]. lia. }
      rewrite E. cbn [bind]. rewrite Hfresh in HI.
      assert (Hmore : forall v, tmem v more = true -> tmem v (tset_union rem more) = true).
      { intros v Hv. rewrite (set_union_mem term_eq str term_eq_key), Hv.
        apply orb_true_r. }
      destruct (IHt (tset_union rem more)) as (R & E' & HU' & HN' & HI' & HX' & HT').
      { exact Htodo'. }
      { intros x Hx. apply set_union_In in Hx as [Hx | Hx]; auto. }
      { now apply (set_union_NoDup term_eq str term_eq_key). }
      { pose proof (set_union_length term_eq rem more). lia. }
      exists R. repeat split; auto.
      * eapply incl_tran; [apply (set_union_incl term_eq rem more) | exact HI'].
      * intros u Hu. destruct (HX' u Hu) as [Hu' | Hu']; [| now right].
        apply set_union_In in Hu' as [Hu' | Hu']; [now left |].
        destruct (HX u Hu') as [Hu'' | Hu'']; [now left | right].
        intros g' v Hv. eapply tmem_incl; [exact HI' |]. apply Hmore.
        eapply Hu''. exact Hv.
      * intros p [<- | Hp]; [| now apply HT'].
        cbn [snd]. eapply tmem_incl; [exact HI' |]. apply Hmore.
        apply (mem_In term_eq str term_eq_key). apply HI. now left.
Qed.

Lemma remainders_fuel_enough (n : nat) : remainders_fuel_spec n.
Proof.
  induction n as [|n IH]; intros self seen Hself Hseen Hn Hl.
  - exfalso. cbn [Nat.add] in Hl.
    assert (length (tset_union [self] seen) <= length U); [| lia].
    apply length_in_universe.
    + intros x Hx. apply set_union_In in Hx as [[<- | []] | Hx]; auto.
    + apply (set_union_NoDup term_eq str term_eq_key). cbn. constructor; [intros [] | constructor].
  - cbn [remainders_fuel].
    destruct (remainders_loop_spec n IH (iterP (ssplicings iterP self))
                (tset_union [self] seen))
      as (R & E & HU & HN & HI & HX & HT).
    + intros [g v] Hp. cbn [snd]. apply (U_closed self); [exact Hself |].
      exists g. now apply (iterP_In iterP iterP_perm).
    + intros x Hx. apply set_union_In in Hx as [[<- | []] | Hx]; auto.
    + apply (set_union_NoDup term_eq str term_eq_key). cbn. constructor; [intros [] | constructor].
    + lia.
    + exists R. repeat split; auto.
      * intros g v Hv. apply (HT (g, v)). now apply (iterP_In iterP iterP_perm).
      * intros u Hu. destruct (HX u Hu) as [Hu' | Hu']; [| now right].
        apply set_union_In in Hu' as [[<- | []] | Hu']; [right | now left].
        intros g v Hv. apply (HT (g, v)). now apply (iterP_In iterP iterP_perm).
Qed.

End Universe.

(** [t.remainders()] returns, and what it returns lies in the remainder
    space of [t]. *)
Lemma remainders_inside (t : Term) :
  exists R,
    remainders iterP t = Ok R /\
    incl R (remainder_space t) /\ NoDup (map str R) /\ In t R /\
    (forall u g v, In u R -> In (g, v) (ssplicings iterP u) -> tmem v R = true).
Proof.
  destruct (remainders_fuel_enough (remainder_space t)
              (fun u v => remainder_space_closed t u v)
              (remainders_bound t) t [])
    as (R & E & HU & HN & HI & HC & HX).
  - apply remainder_space_self.
  - intros x [].
  - constructor.
  - rewrite length_remainder_space. cbn. lia.
  - exists R. repeat split; auto.
    + apply HI. now left.
    + intros u g v Hu Hv. destruct (HX u Hu) as [[] | Hc]. now apply (Hc g).
Qed.

(** C4: [t.remainders()] returns a finite set that contains [t] and that
    contains the right component of every sequential splicing of each of
    its elements; it has at most [remainders_bound t] elements, no two of
    them with the same printed form. *)
Theorem remainders_closed (t : Term) :
  exists R,
    remainders iterP t = Ok R /\
    In t R /\
    (forall u g v, In u R -> In (g, v) (ssplicings iterP u) -> tmem v R = true) /\
    NoDup (map str R) /\ length R <= remainders_bound t.
Proof.
  destruct (remainders_inside t) as (R & E & HU & HN & HI & HC).
  exists R. repeat split; auto.
  rewrite <- length_remainder_space.
  apply NoDup_incl_length; [eapply NoDup_map_inv; exact HN | exact HU].
Qed.

End RemainderFacts.

Lemma remainders_closed_witness :
  exists R,
    remainders id_iterP (Parallel (Star (Primitive "a")) (Primitive "b")) = Ok R /\
    In (Parallel (Star (Primitive "a")) (Primitive "b")) R.
Proof.
  destruct (remainders_closed id_iterP id_iterP_perm
              (Parallel (Star (Primitive "a")) (Primitive "b")))
    as (R & E & Hin & _).
  exists R. split; assumption.
Defined.

(** ** Solving a linear system *)

Lemma lookup_or_raise_Some {A : Type} (o : option A) (a : A) :
  o = Some a -> lookup_or_raise o = Ok a.
Proof. now intros ->. Qed.

(** The dictionary that a comprehension builds when no item raises. *)
Definition dict_of {A K : Type} `{Countable K} (key : A -> K) (F : A -> Term)
    (items : list A) : gmap K Term :=
  fold_left (fun d v => <[key v := F v]> d) items ∅.

Lemma dict_comp_Ok {A K : Type} `{Countable K} (key : A -> K)
    (f : A -> res Term) (F : A -> Term) (items : list A) :
  (forall v, In v items -> f v = Ok (F v)) ->
  dict_comp key f items = Ok (dict_of key F items).
Proof.
  unfold dict_comp, dict_of. generalize (∅ : gmap K Term).
  induction items as [|v items IH]; intros d Hf; cbn [fold_left].
  - reflexivity.
  - rewrite (Hf v) by now left. cbn [bind]. apply IH.
    intros w Hw. apply Hf. now right.
Qed.

Lemma dict_of_lookup {A K : Type} `{Countable K} (key : A -> K) (F : A -> Term)
    (items : list A) (v : A) :
  (forall x y, key x = key y -> F x = F y) ->
  In v items -> dict_of key F items !! key v = Some (F v).
Proof.
  intros HF. unfold dict_of. induction items as [|w items IH] using rev_ind; [intros [] |].
  intros Hv. rewrite fold_left_app. cbn [fold_left].
  destruct (decide (key w = key v)) as [E | N].
  - rewrite E, lookup_insert_eq. f_equal. now apply HF.
  - rewrite lookup_insert_ne by exact N. apply IH.
    apply in_app_iff in Hv as [Hv | [-> | []]]; [assumption | congruence].
Qed.

Lemma sum_gen_Ok {A : Type} (f : A -> res (option Term)) (F : A -> Term)
    (items : list A) (start : Term) :
  (forall v, In v items -> f v = Ok (Some (F v))) ->
  sum_gen f items start = Ok (sum (map F items) start).
Proof.
  unfold sum_gen, sum. revert start.
  induction items as [|v items IH]; intros start Hf; cbn [fold_left map].
  - reflexivity.
  - rewrite (Hf v) by now left. cbn [bind]. apply IH.
    intros w Hw. apply Hf. now right.
Qed.

(** The entries of a system, of a vector and of a solution, where present. *)
Definition entry (self : LinearSystem) (s1 s2 : Term) : Term :=
  default Zero (matrix self !! (str s1, str s2)).

Definition constant (self : LinearSystem) (s : Term) : Term :=
  default Zero (vector self !! str s).

Definition value (solution : gmap string Term) (s : Term) : Term :=
  default Zero (solution !! str s).

(** The symbols are a set, and the matrix and the vector are total. *)
Record total_system (self : LinearSystem) : Prop := {
  symbols_NoDup : NoDup (map str (symbols self));
  matrix_total : forall s1 s2, In s1 (symbols self) -> In s2 (symbols self) ->
                 is_Some (matrix self !! (str s1, str s2));
  vector_total : forall s, In s (symbols self) -> is_Some (vector self !! str s)
}.

Lemma matrix_at_entry (self : LinearSystem) (s1 s2 : Term) :
  total_system self -> In s1 (symbols self) -> In s2 (symbols self) ->
  matrix_at (matrix self) s1 s2 = Ok (entry self s1 s2).
Proof.
  intros T H1 H2. destruct (matrix_total _ T s1 s2 H1 H2) as [x Hx].
  unfold matrix_at, entry. now rewrite Hx.
Qed.

Lemma dict_at_constant (self : LinearSystem) (s : Term) :
  total_system self -> In s (symbols self) ->
  dict_at (vector self) s = Ok (constant self s).
Proof.
  intros T H1. destruct (vector_total _ T s H1) as [x Hx].
  unfold dict_at, constant. now rewrite Hx.
Qed.

Lemma dict_at_value (solution : gmap string Term) (s : Term) :
  is_Some (solution !! str s) -> dict_at solution s = Ok (value solution s).
Proof. intros [x Hx]. unfold dict_at, value. now rewrite Hx. Qed.

Lemma set_diff_single_fresh (s : list Term) (e : Term) :
  ~ In (str e) (map str s) -> tset_diff s [e] = s.
Proof.
  induction s as [|y s IH]; intros H; cbn; [reflexivity |].
  destruct (term_eq y e) eqn:E.
  - exfalso. apply H. left. now apply term_eq_true.
  - cbn. f_equal. apply IH. intros C. apply H. now right.
Qed.

Lemma length_set_diff_single (s : list Term) (e : Term) :
  NoDup (map str s) -> In e s -> S (length (tset_diff s [e])) = length s.
Proof.
  induction s as [|y s IH]; intros Hn He; [destruct He |].
  cbn [map] in Hn. inversion Hn as [|? ? Hy Hs]; subst.
  change (tset_diff (y :: s) [e])
    with (if negb (term_eq y e || false) then y :: tset_diff s [e] else tset_diff s [e]).
  destruct (term_eq y e) eqn:E; cbn [orb negb].
  - apply term_eq_true in E. rewrite set_diff_single_fresh; [reflexivity |].
    now rewrite <- E.
  - destruct He as [-> | He]; [now rewrite term_eq_refl in E |].
    cbn [length]. now rewrite IH.
Qed.

Section SolveFacts.
Variable iterT : list Term -> list Term.
Hypothesis iterT_perm : forall l, Permutation (iterT l) l.

Lemma iterT_In (l : list Term) (x : Term) : In x (iterT l) <-> In x l.
Proof.
  split; apply Permutation_in; [apply iterT_perm | apply Permutation_sym, iterT_perm].
Qed.

(** The system that [solve] hands to the recursive call once it has
    chosen [elim]. *)
Definition subsystem (self : LinearSystem) (elim : Term) : LinearSystem :=
  let reuse := tset_diff (symbols self) [elim] in
  mkLinearSystem reuse
    (dict_of (fun '(v1, v2) => (str v1, str v2))
       (fun '(v1, v2) =>
          add (pow (entry self v1 elim)
                 (pow (star (entry self elim elim)) (entry self elim v2)))
            (entry self v1 v2))
       (flat_map (fun v1 => map (fun v2 => (v1, v2)) (iterT reuse)) (iterT reuse)))
    (dict_of str
       (fun v => add (constant self v) (pow (entry self v elim) (constant self elim)))
       (iterT reuse)).

Lemma entry_key (self : LinearSystem) (x1 x2 y1 y2 : Term) :
  str x1 = str y1 -> str x2 = str y2 -> entry self x1 x2 = entry self y1 y2.
Proof. unfold entry. now intros -> ->. Qed.

Lemma constant_key (self : LinearSystem) (x y : Term) :
  str x = str y -> constant self x = constant self y.
Proof. unfold constant. now intros ->. Qed.

Lemma subsystem_vector (self : LinearSystem) (elim v : Term) :
  In v (tset_diff (symbols self) [elim]) ->
  vector (subsystem self elim) !! str v =
  Some (add (constant self v) (pow (entry self v elim) (constant self elim))).
Proof.
  intros Hv. cbn [subsystem vector].
  apply (dict_of_lookup str
           (fun v => add (constant self v) (pow (entry self v elim) (constant self elim)))).
  - intros x y E. now rewrite (constant_key self x y E), (entry_key self x elim y elim E).
  - now apply iterT_In.
Qed.

Lemma subsystem_matrix (self : LinearSystem) (elim v1 v2 : Term) :
  In v1 (tset_diff (symbols self) [elim]) ->
  In v2 (tset_diff (symbols self) [elim]) ->
  matrix (subsystem self elim) !! (str v1, str v2) =
  Some (add (pow (entry self v1 elim)
               (pow (star (entry self elim elim)) (entry self elim v2)))
          (entry self v1 v2)).
Proof.
  intros H1 H2. cbn [subsystem matrix].
  apply (dict_of_lookup (fun '(v1, v2) => (str v1, str v2))
           (fun '(v1, v2) =>
              add (pow (entry self v1 elim)
                     (pow (star (entry self elim elim)) (entry self elim v2)))
                (entry self v1 v2))
           _ (v1, v2)).
  - intros [x1 x2] [y1 y2] E. inversion E as [[E1 E2]].
    now rewrite (entry_key self x1 elim y1 elim E1), (entry_key self elim x2 elim y2),
      (entry_key self x1 x2 y1 y2 E1 E2).
  - apply in_flat_map. exists v1. split; [now apply iterT_In |].
    apply in_map. now apply iterT_In.
Qed.

Lemma subsystem_total (self : LinearSystem) (elim : Term) :
  total_system self -> total_system (subsystem self elim).
Proof.
  intros T. constructor.
  - apply (set_diff_NoDup term_eq str). apply (symbols_NoDup _ T).
  - intros s1 s2 H1 H2. rewrite (subsystem_matrix self elim s1 s2 H1 H2). eauto.
  - intros s H1. rewrite (subsystem_vector self elim s H1). eauto.
Qed.

(** One unfolding of [solve] on a total system whose first symbol in
    iteration order is [elim]. *)
Lemma solve_fuel_step (n : nat) (self : LinearSystem) (elim : Term) (rest : list Term) :
  total_system self -> iterT (symbols self) = elim :: rest ->
  solve_fuel iterT (S n) self =
  match tset_diff (symbols self) [elim] with
  | [] => Ok {[ str elim := pow (star (entry self elim elim)) (constant self elim) ]}
  | _ :: _ =>
      let* solution := solve_fuel iterT n (subsystem self elim) in
      let* total :=
        sum_gen
          (fun v =>
             let* xv := dict_at solution v in
             Ok (Some (pow (entry self elim v) xv)))
          (iterT (tset_diff (symbols self) [elim])) (constant self elim) in
      Ok (<[str elim := pow (star (entry self elim elim)) total]> solution)
  end.
Proof.
  intros T E. cbn [solve_fuel]. rewrite E.
  assert (He : In elim (symbols self)).
  { apply iterT_In. rewrite E. now left. }
  assert (Hr : forall v, In v (tset_diff (symbols self) [elim]) -> In v (symbols self)).
  { intros v Hv. now apply set_diff_In in Hv. }
  destruct (tset_diff (symbols self) [elim]) as [|y ys] eqn:R.
  - now rewrite (matrix_at_entry self elim elim T He He), (dict_at_constant self elim T He).
  - rewrite <- R in *.
    rewrite (dict_comp_Ok str _
               (fun v => add (constant self v) (pow (entry self v elim) (constant self elim)))).
    2:{ intros v Hv. apply iterT_In, Hr in Hv.
        now rewrite (dict_at_constant self v T Hv), (matrix_at_entry self v elim T Hv He),
          (dict_at_constant self elim T He). }
    cbn [bind].
    rewrite (dict_comp_Ok (fun '(v1, v2) => (str v1, str v2)) _
               (fun '(v1, v2) =>
                  add (pow (entry self v1 elim)
                         (pow (star (entry self elim elim)) (entry self elim v2)))
                    (entry self v1 v2))).
    2:{ intros [v1 v2] Hv. apply in_flat_map in Hv as (x & Hx & Hv).
        apply in_map_iff in Hv as (y' & Ey & Hy). inversion Ey; subst x y'.
        apply iterT_In, Hr in Hx. apply iterT_In, Hr in Hy.
        now rewrite (matrix_at_entry self v1 elim T Hx He),
          (matrix_at_entry self elim elim T He He),
          (matrix_at_entry self elim v2 T He Hy),
          (matrix_at_entry self v1 v2 T Hx Hy). }
    cbn [bind]. fold (subsystem self elim).
    destruct (solve_fuel iterT n (subsystem self elim)) as [solution | err];
      cbn [bind]; [| reflexivity].
    rewrite (matrix_at_entry self elim elim T He He), (dict_at_constant self elim T He).
    cbn [bind]. f_equal.
    unfold sum_gen. generalize (Ok (constant self elim)).
    assert (Hall : forall v, In v (iterT (tset_diff (symbols self) [elim])) ->
                   In v (symbols self)) by (intros v Hv; now apply iterT_In, Hr in Hv).
    induction (iterT (tset_diff (symbols self) [elim])) as [|v l IHl]; intros acc;
      cbn [fold_left]; [reflexivity |].
    rewrite IHl by (intros w Hw; apply Hall; now right).
    f_equal. destruct acc as [a | err]; cbn [bind]; [| reflexivity].
    now rewrite (matrix_at_entry self elim v T He (Hall v (or_introl eq_refl))).
Qed.

(** What [solve] returns on a total system, in terms of the system that
    remains once the first symbol [elim] is eliminated. *)
Definition solve_spec (self : LinearSystem) : Prop :=
  exists elim rest X,
    iterT (symbols self) = elim :: rest /\
    solve iterT self = Ok X /\
    (forall v, In v (symbols self) -> is_Some (X !! str v)) /\
    let reuse := tset_diff (symbols self) [elim] in
    (forall v, In v reuse <-> In v (symbols self) /\ term_eq v elim = false) /\
    (reuse = [] ->
     X = {[ str elim := pow (star (entry self elim elim)) (constant self elim) ]}) /\
    (reuse <> [] ->
     exists sub X',
       symbols sub = reuse /\ total_system sub /\
       (forall v, In v reuse ->
          constant sub v =
          add (constant self v) (pow (entry self v elim) (constant self elim))) /\
       (forall v1 v2, In v1 reuse -> In v2 reuse ->
          entry sub v1 v2 =
          add (pow (entry self v1 elim)
                 (pow (star (entry self elim elim)) (entry self elim v2)))
            (entry self v1 v2)) /\
       solve iterT sub = Ok X' /\
       (forall v, In v reuse -> is_Some (X' !! str v)) /\
       X = <[ str elim :=
                pow (star (entry self elim elim))
                  (sum (map (fun v => pow (entry self elim v) (value X' v)) (iterT reuse))
                     (constant self elim)) ]> X').

Lemma set_diff_single_In (s : list Term) (e v : Term) :
  In v (tset_diff s [e]) <-> In v s /\ term_eq v e = false.
Proof.
  rewrite set_diff_In. cbn [mem existsb]. now rewrite orb_false_r.
Qed.

Lemma solve_spec_by_size (n : nat) :
  forall self, length (symbols self) = n -> symbols self <> [] -> total_system self ->
  solve_spec self.
Proof.
  induction n as [|n IH]; intros self Hlen Hne T.
  - destruct (symbols self); [congruence | discriminate].
  - destruct (iterT (symbols self)) as [|elim rest] eqn:E.
    { exfalso. apply Hne. pose proof (iterT_perm (symbols self)) as P.
      rewrite E in P. now apply Permutation_nil in P. }
    assert (He : In elim (symbols self)).
    { apply iterT_In. rewrite E. now left. }
    pose proof (length_set_diff_single _ _ (symbols_NoDup _ T) He) as Hl.
    pose proof (solve_fuel_step (S n) self elim rest T E) as Hstep.
    unfold solve_spec. exists elim, rest.
    unfold solve at 1. rewrite Hlen, Hstep.
    destruct (tset_diff (symbols self) [elim]) as [|y ys] eqn:R.
    + eexists. split; [exact E |]. split; [reflexivity |]. split; [| split; [| split]].
      * intros v Hv. destruct (term_eq v elim) eqn:Ev.
        -- apply term_eq_true in Ev. rewrite Ev, lookup_singleton_eq. eauto.
        -- assert (In v []) as []. rewrite <- R. now apply set_diff_single_In.
      * intros v. rewrite <- R. apply set_diff_single_In.
      * reflexivity.
      * congruence.
    + rewrite <- R in *.
      destruct (IH (subsystem self elim)) as (e' & r' & X' & _ & EX' & HX' & _).
      { cbn [subsystem symbols]. lia. }
      { cbn [subsystem symbols]. rewrite R. discriminate. }
      { now apply subsystem_total. }
      assert (EX'' : solve_fuel iterT (S n) (subsystem self elim) = Ok X').
      { rewrite <- EX'. unfold solve. cbn [subsystem symbols]. f_equal. lia. }
      rewrite EX''. cbn [bind].
      rewrite (sum_gen_Ok _ (fun v => pow (entry self elim v) (value X' v))).
      2:{ intros v Hv. apply (proj1 (iterT_In _ _)) in Hv.
          rewrite (dict_at_value X' v); [reflexivity |]. apply HX'. exact Hv. }
      cbn [bind]. eexists. split; [exact E |]. split; [reflexivity |].
      split; [| split; [| split]].
      * intros v Hv. destruct (term_eq v elim) eqn:Ev.
        -- apply term_eq_true in Ev. rewrite Ev, lookup_insert_eq. eauto.
        -- rewrite lookup_insert_ne.
           ++ apply HX'. cbn [subsystem symbols]. now apply set_diff_single_In.
           ++ apply term_eq_false in Ev. congruence.
      * intros v. apply set_diff_single_In.
      * rewrite R. discriminate.
      * intros _. exists (subsystem self elim), X'.
        split; [reflexivity |]. split; [now apply subsystem_total |].
        split; [| split; [| split; [| split]]].
        -- intros v Hv. unfold constant at 1. now rewrite subsystem_vector.
        -- intros v1 v2 H1 H2. unfold entry at 1. now rewrite subsystem_matrix.
        -- exact EX'.
        -- exact HX'.
        -- reflexivity.
Qed.

(** C1: on a system with at least one symbol, a total matrix and a total
    vector, [solve] picks the first symbol [elim] in iteration order; with
    no other symbol it returns [{elim: A(elim,elim).star() ** b(elim)}];
    otherwise it solves the system over the other symbols with vector
    [b(v) + A(v,elim) ** b(elim)] and matrix
    [A(v1,elim) ** A(elim,elim).star() ** A(elim,v2) + A(v1,v2)], and sets the
    value of [elim] to [A(elim,elim).star()] times the sum, from [b(elim)],
    of [A(elim,v) ** X(v)] over the other symbols [v].  The result is
    defined on every symbol. *)
Theorem solve_eliminates (self : LinearSystem)
    (Hsymbols : symbols self <> []) (Htotal : total_system self) :
  exists elim rest X,
    iterT (symbols self) = elim :: rest /\
    solve iterT self = Ok X /\
    (forall v, In v (symbols self) -> is_Some (X !! str v)) /\
    let reuse := tset_diff (symbols self) [elim] in
    (forall v, In v reuse <-> In v (symbols self) /\ term_eq v elim = false) /\
    (reuse = [] ->
     X = {[ str elim := pow (star (entry self elim elim)) (constant self elim) ]}) /\
    (reuse <> [] ->
     exists sub X',
       symbols sub = reuse /\ total_system sub /\
       (forall v, In v reuse ->
          constant sub v =
          add (constant self v) (pow (entry self v elim) (constant self elim))) /\
       (forall v1 v2, In v1 reuse -> In v2 reuse ->
          entry sub v1 v2 =
          add (pow (entry self v1 elim)
                 (pow (star (entry self elim elim)) (entry self elim v2)))
            (entry self v1 v2)) /\
       solve iterT sub = Ok X' /\
       (forall v, In v reuse -> is_Some (X' !! str v)) /\
       X = <[ str elim :=
                pow (star (entry self elim elim))
                  (sum (map (fun v => pow (entry self elim v) (value X' v)) (iterT reuse))
                     (constant self elim)) ]> X').
Proof.
  destruct (solve_spec_by_size (length (symbols self)) self eq_refl Hsymbols Htotal)
    as (elim & rest & X & Hfirst & Hsolve & Hdefined & Hreuse & Hbase & Hstep).
  exists elim, rest, X.
  split; [exact Hfirst |]. split; [exact Hsolve |]. split; [exact Hdefined |].
  intros reuse. split; [exact Hreuse |]. split; [exact Hbase |].
  intros Hmore. destruct (Hstep Hmore) as (sub & X' & Hsub).
  exists sub, X'. exact Hsub.
Qed.

End SolveFacts.

(** A system over the two symbols [x] and [y]:
    [x >= a x + b y + c] and [y >= d y + e]. *)
Definition example_system : LinearSystem :=
  let x := Primitive "x" in
  let y := Primitive "y" in
  mkLinearSystem [x; y]
    (<[(str x, str x) := Primitive "a"]>
       (<[(str x, str y) := Primitive "b"]>
          (<[(str y, str x) := Zero]>
             (<[(str y, str y) := Primitive "d"]> ∅))))
    (<[str x := Primitive "c"]> (<[str y := Primitive "e"]> ∅)).

Example solve_example_system :
  (let* X := solve id_iterT example_system in
   Ok (str (value X (Primitive "x")), str (value X (Primitive "y"))))
  = Ok ("a*(c + bd*e)", "d*e").
Proof. vm_compute. reflexivity. Qed.

Lemma example_system_total : total_system example_system.
Proof.
  constructor.
  - cbn. repeat constructor; cbn; intuition discriminate.
  - intros s1 s2 [<- | [<- | []]] [<- | [<- | []]]; vm_compute; eauto.
  - intros s [<- | [<- | []]]; vm_compute; eauto.
Defined.

Lemma solve_eliminates_witness :
  exists X,
    solve id_iterT example_system = Ok X /\
    is_Some (X !! "x") /\ is_Some (X !! "y").
Proof.
  destruct (solve_eliminates id_iterT id_iterT_perm example_system)
    as (elim & rest & X & _ & Hsolve & Hdefined & _).
  - discriminate.
  - exact example_system_total.
  - exists X. split; [exact Hsolve |].
    split; [apply (Hdefined (Primitive "x")) | apply (Hdefined (Primitive "y"))];
      cbn; auto.
Defined.

(** ** Width and preclosure *)

(** The width of a term without [Zero]. *)
Fixpoint nwidth (t : Term) : nat :=
  match t with
  | Zero => 0
  | One => 0
  | Primitive _ => 1
  | Choice l r => Nat.max (nwidth l) (nwidth r)
  | Sequential l r => Nat.max (nwidth l) (nwidth r)
  | Parallel l r => nwidth l + nwidth r
  | Star b => nwidth b
  end.

Lemma is_trivial_zero_free (t : Term) : zero_free t = true -> is_trivial t = Ok false.
Proof.
  induction t; cbn [zero_free is_trivial]; intros H; try discriminate; try reflexivity;
    apply andb_true_iff in H as [H1 H2]; rewrite (IHt1 H1); cbn [bind]; auto.
Qed.

Lemma width_zero_free (t : Term) : zero_free t = true -> width t = Ok (nwidth t).
Proof.
  induction t; intros H; pose proof (is_trivial_zero_free _ H) as Ht;
    cbn [zero_free] in H; try discriminate;
    try (apply andb_true_iff in H as [H1 H2]);
    cbn [width]; rewrite Ht; cbn [bind nontrivial_width nwidth];
    rewrite ?IHt1, ?IHt2, ?IHt by assumption; reflexivity.
Qed.

Lemma floordiv_zero_free (a b : Term) :
  zero_free a = true -> zero_free b = true -> zero_free (floordiv a b) = true.
Proof.
  intros Ha Hb. destruct a, b; cbn in *; try discriminate; try reflexivity;
    rewrite ?Ha, ?Hb; try reflexivity; assumption.
Qed.

Lemma sum_gen_filter {A : Type} (f : A -> res (option Term)) (P : A -> bool)
    (F : A -> Term) (items : list A) (start : Term) :
  (forall v, In v items -> f v = Ok (if P v then Some (F v) else None)) ->
  sum_gen f items start = Ok (sum (map F (List.filter P items)) start).
Proof.
  unfold sum_gen, sum. revert start.
  induction items as [|v items IH]; intros start Hf; cbn [fold_left map List.filter].
  - reflexivity.
  - rewrite (Hf v) by now left. cbn [bind].
    destruct (P v); cbn [map fold_left]; apply IH; intros w Hw; apply Hf; now right.
Qed.

Lemma sum_gen_ext {A : Type} (f1 f2 : A -> res (option Term)) (items : list A)
    (start : Term) :
  (forall v, In v items -> f1 v = f2 v) ->
  sum_gen f1 items start = sum_gen f2 items start.
Proof.
  unfold sum_gen. generalize (Ok start) as acc.
  induction items as [|v items IH]; intros acc Hf; cbn [fold_left]; [reflexivity |].
  rewrite (Hf v) by now left. apply IH. intros w Hw. apply Hf. now right.
Qed.

Section PreclosureFacts.
Variable iterP : list (Term * Term) -> list (Term * Term).
Hypothesis iterP_perm : forall l, Permutation (iterP l) l.

Lemma psplicings_zero_free (t : Term) :
  zero_free t = true ->
  forall g h, In (g, h) (psplicings iterP t) ->
  zero_free g = true /\ zero_free h = true.
Proof.
  induction t; intros Hz g h H;
    apply psplicings_In in H as [H | [H | H]];
    try (inversion H; subst; split; [exact Hz | reflexivity]);
    try (inversion H; subst; split; [reflexivity | exact Hz]);
    cbn [nontrivial_psplicings] in H; try contradiction;
    cbn [zero_free] in Hz; try (apply andb_true_iff in Hz as [H1 H2]).
  - apply set_union_In in H as [H | H]; [now apply IHt1 | now apply IHt2].
  - apply set_union_In in H as [H | H]; apply set_of_In in H;
      apply filter_In in H as [H _]; apply (proj1 (iterP_In iterP iterP_perm _ _)) in H;
      [now apply IHt1 | now apply IHt2].
  - apply set_of_In in H. apply in_flat_map in H as ([g1 h1] & Hl & H).
    apply in_map_iff in H as ([g2 h2] & E & Hr).
    apply (proj1 (iterP_In iterP iterP_perm _ _)) in Hl.
    apply (proj1 (iterP_In iterP iterP_perm _ _)) in Hr.
    destruct (IHt1 H1 _ _ Hl), (IHt2 H2 _ _ Hr). inversion E; subst.
    split; now apply floordiv_zero_free.
  - now apply IHt.
Qed.

(** The guard of [preclosure] on a pair of the parallel splicings. *)
Definition narrower (self : Term) (p : Term * Term) : bool :=
  (nwidth (fst p) <? nwidth self) && (nwidth (snd p) <? nwidth self).

(** The value of [preclosure] when the closure of the narrower terms
    returns. *)
Lemma preclosure_value (left right : Term) (closure : Term -> res Term) (C : Term -> Term) :
  zero_free left = true -> zero_free right = true ->
  (forall g, zero_free g = true -> nwidth g < nwidth (Parallel left right) ->
             closure g = Ok (C g)) ->
  preclosure iterP closure left right =
  Ok (sum (map (fun p => floordiv (C (fst p)) (C (snd p)))
             (List.filter (narrower (Parallel left right))
                (iterP (psplicings iterP (Parallel left right)))))
        (floordiv left right)).
Proof.
  intros Hleft Hright Hc. set (self := Parallel left right) in *.
  assert (Hself : zero_free self = true) by (cbn; now rewrite Hleft, Hright).
  unfold preclosure. fold self.
  apply (sum_gen_filter _ (narrower self) (fun p => floordiv (C (fst p)) (C (snd p)))).
  intros [g h] Hp. apply (proj1 (iterP_In iterP iterP_perm _ _)) in Hp.
  destruct (psplicings_zero_free self Hself g h Hp) as [Hg Hh].
  rewrite (width_zero_free g Hg), (width_zero_free h Hh), (width_zero_free self Hself).
  cbn [bind]. unfold narrower. cbn [fst snd].
  destruct (nwidth g <? nwidth self) eqn:Eg; cbn [andb]; [| reflexivity].
  destruct (nwidth h <? nwidth self) eqn:Eh; [| reflexivity].
  apply Nat.ltb_lt in Eg, Eh.
  now rewrite (Hc g Hg Eg), (Hc h Hh Eh).
Qed.

(** [preclosure] only asks for the closure of narrower terms. *)
Lemma preclosure_ext (left right : Term) (c1 c2 : Term -> res Term) :
  zero_free left = true -> zero_free right = true ->
  (forall g, zero_free g = true -> nwidth g < nwidth (Parallel left right) ->
             c1 g = c2 g) ->
  preclosure iterP c1 left right = preclosure iterP c2 left right.
Proof.
  intros Hleft Hright Hc. set (self := Parallel left right) in *.
  assert (Hself : zero_free self = true) by (cbn; now rewrite Hleft, Hright).
  unfold preclosure. fold self. apply sum_gen_ext.
  intros [g h] Hp. apply (proj1 (iterP_In iterP iterP_perm _ _)) in Hp.
  destruct (psplicings_zero_free self Hself g h Hp) as [Hg Hh].
  rewrite (width_zero_free g Hg), (width_zero_free h Hh), (width_zero_free self Hself).
  cbn [bind].
  destruct (nwidth g <? nwidth self) eqn:Eg; [| reflexivity].
  destruct (nwidth h <? nwidth self) eqn:Eh; [| reflexivity].
  apply Nat.ltb_lt in Eg, Eh.
  now rewrite (Hc g Hg Eg), (Hc h Hh Eh).
Qed.

(** X15: for [P = Parallel(l, r)] with no [Zero] in [l] and [r], as the
    constructors build them, the widths that [P.preclosure()] compares are
    defined, and [P.preclosure()] is the sum, from [l // r], of
    [g.closure() // h.closure()] over the parallel splicings [(g, h)] of [P]
    with [g] and [h] both of smaller width than [P]; it calls [closure] on
    terms of smaller width than [P] only, so two closures that agree on
    those give the same preclosure. *)
Theorem preclosure_narrower (left right : Term)
    (Hleft : zero_free left = true) (Hright : zero_free right = true) :
  let self := Parallel left right in
  width self = Ok (nwidth self) /\
  (forall g h, In (g, h) (psplicings iterP self) ->
     width g = Ok (nwidth g) /\ width h = Ok (nwidth h)) /\
  (forall (closure : Term -> res Term) (C : Term -> Term),
     (forall g, zero_free g = true -> nwidth g < nwidth self -> closure g = Ok (C g)) ->
     preclosure iterP closure left right =
     Ok (sum (map (fun p => floordiv (C (fst p)) (C (snd p)))
                (List.filter (narrower self) (iterP (psplicings iterP self))))
           (floordiv left right))) /\
  (forall c1 c2 : Term -> res Term,
     (forall g, zero_free g = true -> nwidth g < nwidth self -> c1 g = c2 g) ->
     preclosure iterP c1 left right = preclosure iterP c2 left right).
Proof.
  intros self.
  assert (Hself : zero_free self = true) by (cbn; now rewrite Hleft, Hright).
  assert (Hpairs : forall g h, In (g, h) (psplicings iterP self) ->
            zero_free g = true /\ zero_free h = true)
    by now apply psplicings_zero_free.
  repeat split.
  - now apply width_zero_free.
  - apply width_zero_free. now destruct (Hpairs g h H).
  - apply width_zero_free. now destruct (Hpairs g h H).
  - intros closure C Hc. now apply preclosure_value.
  - intros c1 c2 Hc. now apply preclosure_ext.
Qed.

End PreclosureFacts.

(** ** Closure and the smart constructors *)

Lemma pow_cases (a b : Term) :
  (b = One /\ pow a b = a) \/ (a = One /\ pow a b = b) \/
  (b = Zero /\ pow a b = Zero) \/ (a = Zero /\ pow a b = Zero) \/
  pow a b = Sequential a b.
Proof. destruct a, b; cbn; tauto. Qed.

Lemma pow_One_l (a : Term) : pow One a = a.
Proof. destruct a; reflexivity. Qed.

Lemma star_cases (a : Term) :
  ((a = One \/ a = Zero) /\ star a = One) \/
  (is_Star a = true /\ star a = a) \/
  star a = Star a.
Proof. destruct a; cbn; tauto. Qed.

Lemma star_idempotent (a : Term) : star (star a) = star a.
Proof. destruct a; reflexivity. Qed.

Lemma add_same (a : Term) : add a a = a.
Proof.
  destruct a; cbn [add term_add]; rewrite ?contains_refl; reflexivity.
Qed.

Lemma add_cases (a b : Term) :
  add a b = a \/ add a b = b \/ add a b = Choice a b \/
  exists l r s,
    (a = Sequential l r \/ b = Sequential l r) /\ star_side l r = Some s /\ add a b = s.
Proof.
  assert (H : term_add a b = a \/ term_add a b = b \/ term_add a b = Choice a b).
  { destruct (term_add_cases a b) as [H | [H | [H _]]]; auto. }
  unfold add.
  destruct a as [| | ? | ? ? | al ar | ? ? | ?]; try tauto.
  - destruct b as [| | ? | ? ? | bl br | ? ? | ?]; try tauto.
    destruct (star_side bl br) as [s |] eqn:E; [| tauto].
    right; right; right. exists bl, br, s. auto.
  - destruct b; try tauto.
    destruct (star_side al ar) as [s |] eqn:E; [| tauto].
    right; right; right. exists al, ar, s. auto.
Qed.

(** Terms that the constructors give back when applied to their parts. *)
Fixpoint rebuilt (t : Term) : Prop :=
  match t with
  | Zero | One | Primitive _ => True
  | Choice l r => rebuilt l /\ rebuilt r /\ add l r = t
  | Sequential l r => rebuilt l /\ rebuilt r /\ pow l r = t
  | Parallel l r => rebuilt l /\ rebuilt r /\ floordiv l r = t
  | Star b => rebuilt b /\ star b = t
  end.

Lemma rebuilt_star_side (l r s : Term) :
  rebuilt (Sequential l r) -> star_side l r = Some s -> rebuilt s.
Proof.
  intros (Hl & Hr & _) Hs.
  destruct (star_side_cases _ _ _ Hs) as [-> | ->]; assumption.
Qed.

Lemma rebuilt_add (a b : Term) : rebuilt a -> rebuilt b -> rebuilt (add a b).
Proof.
  intros Ha Hb.
  destruct (add_cases a b) as [-> | [-> | [E | (l & r & s & [-> | ->] & Hs & ->)]]];
    try assumption.
  - rewrite E. cbn. auto.
  - eapply rebuilt_star_side; eassumption.
  - eapply rebuilt_star_side; eassumption.
Qed.

Lemma rebuilt_pow (a b : Term) : rebuilt a -> rebuilt b -> rebuilt (pow a b).
Proof.
  intros Ha Hb.
  destruct (pow_cases a b) as [[_ ->] | [[_ ->] | [[_ ->] | [[_ ->] | E]]]];
    try assumption; try exact I.
  rewrite E. cbn. auto.
Qed.

Lemma rebuilt_floordiv (a b : Term) : rebuilt a -> rebuilt b -> rebuilt (floordiv a b).
Proof.
  intros Ha Hb.
  assert (H : floordiv a b = a \/ floordiv a b = b \/ floordiv a b = Zero \/
              floordiv a b = Parallel a b) by (destruct a, b; cbn; tauto).
  destruct H as [-> | [-> | [-> | E]]]; try assumption; try exact I.
  rewrite E. cbn. auto.
Qed.

Lemma rebuilt_star (a : Term) : rebuilt a -> rebuilt (star a).
Proof.
  intros Ha. destruct (star_cases a) as [[_ ->] | [[_ ->] | E]];
    try assumption; try exact I.
  rewrite E. cbn. auto.
Qed.

Lemma built_rebuilt (t : Term) : built t -> rebuilt t.
Proof.
  induction 1; try exact I;
    auto using rebuilt_add, rebuilt_pow, rebuilt_floordiv, rebuilt_star.
Qed.

(** No parallel composition in the term. *)
Fixpoint parallel_free (t : Term) : bool :=
  match t with
  | Zero | One | Primitive _ => true
  | Choice l r | Sequential l r => parallel_free l && parallel_free r
  | Parallel _ _ => false
  | Star b => parallel_free b
  end.

Lemma parallel_free_add (a b : Term) :
  parallel_free a = true -> parallel_free b = true -> parallel_free (add a b) = true.
Proof.
  intros Ha Hb.
  destruct (add_cases a b) as [-> | [-> | [-> | (l & r & s & E & Hs & ->)]]];
    try assumption.
  - cbn. now rewrite Ha, Hb.
  - assert (H : parallel_free (Sequential l r) = true) by (destruct E as [<- | <-]; assumption).
    cbn in H. apply andb_true_iff in H as [Hl Hr].
    destruct (star_side_cases _ _ _ Hs) as [-> | ->]; assumption.
Qed.

Section ClosureFacts.
Variable iterT : list Term -> list Term.
Variable iterP : list (Term * Term) -> list (Term * Term).

Lemma closure_leaf (n : nat) (t c : Term) :
  t = Zero \/ t = One -> closure iterT iterP n t = Ok c -> c = t.
Proof.
  destruct n; [discriminate |]. intros [-> | ->] H; cbn in H; now inversion H.
Qed.

Lemma closure_Choice (n : nat) (l r : Term) :
  closure iterT iterP n (Choice l r) =
  let* a := closure iterT iterP n l in
  let* b := closure iterT iterP n r in
  Ok (add a b).
Proof. destruct n; reflexivity. Qed.

Lemma closure_Sequential (n : nat) (l r : Term) :
  closure iterT iterP n (Sequential l r) =
  let* a := closure iterT iterP n l in
  let* b := closure iterT iterP n r in
  Ok (pow a b).
Proof. destruct n; reflexivity. Qed.

Lemma closure_Star (n : nat) (b : Term) :
  closure iterT iterP n (Star b) =
  let* a := closure iterT iterP n b in
  Ok (star a).
Proof. destruct n; reflexivity. Qed.

(** The closure of a term without parallel composition that the
    constructors built is the term itself. *)
Lemma closure_rebuilt (n : nat) (t : Term) :
  rebuilt t -> parallel_free t = true -> closure iterT iterP (S n) t = Ok t.
Proof.
  induction t; cbn [rebuilt parallel_free]; intros Hr Hp; try discriminate;
    try reflexivity.
  - destruct Hr as (H1 & H2 & E). apply andb_true_iff in Hp as [P1 P2].
    rewrite closure_Choice, IHt1, IHt2 by assumption. cbn [bind]. now rewrite E.
  - destruct Hr as (H1 & H2 & E). apply andb_true_iff in Hp as [P1 P2].
    rewrite closure_Sequential, IHt1, IHt2 by assumption. cbn [bind]. now rewrite E.
  - destruct Hr as (H1 & E).
    rewrite closure_Star, IHt by assumption. cbn [bind]. now rewrite E.
Qed.

(** Where the closures of [a] and [b] return, the closure of [a ** b] and
    of [a.star()] are built from them, and so is the closure of [a + b]
    when the sum does not absorb an operand. *)
Lemma closure_of_constructors (n : nat) (a b ca cb : Term)
    (Ha : closure iterT iterP n a = Ok ca)
    (Hb : closure iterT iterP n b = Ok cb) :
  closure iterT iterP n (pow a b) = Ok (pow ca cb) /\
  closure iterT iterP n (star a) = Ok (star ca) /\
  (add a b = Choice a b \/ a = Zero \/ b = Zero \/ a = b \/
   (built a /\ built b /\ parallel_free a = true /\ parallel_free b = true) ->
   closure iterT iterP n (add a b) = Ok (add ca cb)).
Proof.
  split; [| split].
  - destruct (pow_cases a b) as [[E ->] | [[E ->] | [[E ->] | [[E ->] | ->]]]].
    + subst b. apply closure_leaf in Hb; [| now right]. now subst cb.
    + subst a. apply closure_leaf in Ha; [| now right]. subst ca.
      now rewrite pow_One_l.
    + subst b. pose proof Hb as Hb'. apply closure_leaf in Hb'; [| now left].
      subst cb. rewrite Hb. f_equal. symmetry. apply pow_Zero.
    + subst a. pose proof Ha as Ha'. apply closure_leaf in Ha'; [| now left].
      subst ca. rewrite Ha. f_equal. symmetry. apply pow_Zero.
    + now rewrite closure_Sequential, Ha, Hb.
  - destruct (star_cases a) as [[E ->] | [[E ->] | ->]].
    + assert (ca = a) as -> by (apply (closure_leaf n); [tauto | exact Ha]).
      destruct E as [-> | ->]; cbn [star]; destruct n; try discriminate; reflexivity.
    + destruct a; try discriminate. rewrite closure_Star in Ha.
      destruct (closure iterT iterP n a) as [x | e] eqn:Ex; [| discriminate].
      cbn [bind] in Ha. inversion Ha; subst ca.
      rewrite closure_Star, Ex. cbn [bind]. now rewrite star_idempotent.
    + now rewrite closure_Star, Ha.
  - intros [E | [E | [E | [E | (Ba & Bb & Pa & Pb)]]]].
    + now rewrite E, closure_Choice, Ha, Hb.
    + subst a. apply closure_leaf in Ha; [| now left]. subst ca.
      now rewrite !add_Zero_l.
    + subst b. apply closure_leaf in Hb; [| now left]. subst cb.
      now rewrite !add_Zero_r.
    + subst b. rewrite Ha in Hb. inversion Hb; subst cb. now rewrite !add_same.
    + destruct n; [discriminate |].
      apply built_rebuilt in Ba, Bb.
      rewrite (closure_rebuilt n a Ba Pa) in Ha.
      rewrite (closure_rebuilt n b Bb Pb) in Hb.
      inversion Ha; inversion Hb; subst ca cb.
      apply closure_rebuilt; [now apply rebuilt_add | now apply parallel_free_add].
Qed.

End ClosureFacts.

(** Iteration against the order of insertion. *)
Definition rev_iterT (l : list Term) : list Term := rev l.
Definition rev_iterP (l : list (Term * Term)) : list (Term * Term) := rev l.

(** C8 fails for a sum that absorbs an operand: [b‖a] is contained in
    [a‖b], so [a‖b + b‖a] is [a‖b], and the closure of [b‖a] is not
    contained in the closure of [a‖b].  This is so with sets iterated in
    the order of insertion, and against it. *)
Lemma closure_commutes_counterexample :
  let a := floordiv (Primitive "a") (Primitive "b") in
  let b := floordiv (Primitive "b") (Primitive "a") in
  add a b = a /\
  (exists c ca cb,
     closure id_iterT id_iterP 2 (add a b) = Ok c /\
     closure id_iterT id_iterP 2 a = Ok ca /\
     closure id_iterT id_iterP 2 b = Ok cb /\
     str c = "a‖b + ba + ab" /\
     str (add ca cb) = "a‖b + ba + ab + b‖a + ab + ba" /\
     term_eq c (add ca cb) = false) /\
  (exists c ca cb,
     closure rev_iterT rev_iterP 2 (add a b) = Ok c /\
     closure rev_iterT rev_iterP 2 a = Ok ca /\
     closure rev_iterT rev_iterP 2 b = Ok cb /\
     term_eq c (add ca cb) = false).
Proof.
  intros a b.
  assert (E : add a b = a) by (vm_compute; reflexivity).
  rewrite E. split; [reflexivity |]. split.
  - destruct (closure id_iterT id_iterP 2 a) as [ca | e] eqn:Ha;
      [| vm_compute in Ha; discriminate].
    destruct (closure id_iterT id_iterP 2 b) as [cb | e] eqn:Hb;
      [| vm_compute in Hb; discriminate].
    exists ca, ca, cb. vm_compute in Ha, Hb. inversion Ha. inversion Hb.
    repeat split; vm_compute; reflexivity.
  - destruct (closure rev_iterT rev_iterP 2 a) as [ca | e] eqn:Ha;
      [| vm_compute in Ha; discriminate].
    destruct (closure rev_iterT rev_iterP 2 b) as [cb | e] eqn:Hb;
      [| vm_compute in Hb; discriminate].
    exists ca, ca, cb. vm_compute in Ha, Hb. inversion Ha. inversion Hb.
    repeat split; vm_compute; reflexivity.
Qed.

(** ** Fuel of closure *)

(** [c2] returns what [c1] returns. *)
Definition refines (c1 c2 : Term -> res Term) : Prop :=
  forall t x, c1 t = Ok x -> c2 t = Ok x.

Lemma sum_gen_mono {A : Type} (f1 f2 : A -> res (option Term)) (items : list A)
    (start x : Term) :
  (forall v y, f1 v = Ok y -> f2 v = Ok y) ->
  sum_gen f1 items start = Ok x -> sum_gen f2 items start = Ok x.
Proof.
  intros Hf. unfold sum_gen. generalize (Ok start) as acc.
  induction items as [|v items IH]; intros acc; cbn [fold_left]; [auto |].
  destruct acc as [a | e]; cbn [bind].
  - destruct (f1 v) as [y | e] eqn:E.
    + rewrite (Hf v y E). apply IH.
    + intros H. exfalso. clear - H. revert H.
      induction items as [|w items IH]; cbn [fold_left bind]; [discriminate | exact IH].
  - intros H. exfalso. clear - H. revert H.
    induction items as [|w items IH]; cbn [fold_left bind]; [discriminate | exact IH].
Qed.

Lemma dict_comp_mono {A K : Type} `{Countable K} (key : A -> K)
    (f1 f2 : A -> res Term) (items : list A) (d : gmap K Term) :
  (forall v y, f1 v = Ok y -> f2 v = Ok y) ->
  dict_comp key f1 items = Ok d -> dict_comp key f2 items = Ok d.
Proof.
  intros Hf. unfold dict_comp. generalize (Ok (∅ : gmap K Term)) as acc.
  induction items as [|v items IH]; intros acc; cbn [fold_left]; [auto |].
  destruct acc as [a | e]; cbn [bind].
  - destruct (f1 v) as [y | e] eqn:E.
    + rewrite (Hf v y E). apply IH.
    + intros H'. exfalso. clear - H'. revert H'.
      induction items as [|w items IH]; cbn [fold_left bind]; [discriminate | exact IH].
  - intros H'. exfalso. clear - H'. revert H'.
    induction items as [|w items IH]; cbn [fold_left bind]; [discriminate | exact IH].
Qed.

Section FuelFacts.
Variable iterT : list Term -> list Term.
Variable iterP : list (Term * Term) -> list (Term * Term).

Lemma preclosure_mono (c1 c2 : Term -> res Term) (l r x : Term) :
  refines c1 c2 ->
  preclosure iterP c1 l r = Ok x -> preclosure iterP c2 l r = Ok x.
Proof.
  intros Hc. unfold preclosure. apply sum_gen_mono. intros [g h] y.
  destruct (width g) as [gw | e]; cbn [bind]; [| discriminate].
  destruct (width (Parallel l r)) as [sw | e]; cbn [bind]; [| discriminate].
  destruct (gw <? sw); [| auto].
  destruct (width h) as [hw | e]; cbn [bind]; [| discriminate].
  destruct (hw <? sw); [| auto].
  destruct (c1 g) as [cg | e] eqn:Eg; cbn [bind]; [| discriminate].
  destruct (c1 h) as [ch | e] eqn:Eh; cbn [bind]; [| discriminate].
  now rewrite (Hc g cg Eg), (Hc h ch Eh).
Qed.

Lemma linear_system_mono (c1 c2 : Term -> res Term) (l r : Term) (system : LinearSystem) :
  refines c1 c2 ->
  linear_system iterT iterP c1 l r = Ok system ->
  linear_system iterT iterP c2 l r = Ok system.
Proof.
  intros Hc. unfold linear_system.
  destruct (remainders iterP l) as [lrem | e]; cbn [bind]; [| discriminate].
  destruct (remainders iterP r) as [rrem | e]; cbn [bind]; [| discriminate].
  match goal with
  | |- context [dict_comp str ?f ?items] => destruct (dict_comp str f items) as [vec | e]
  end; cbn [bind]; [| discriminate].
  match goal with
  | |- bind (dict_comp ?k ?f1 ?items) _ = _ -> bind (dict_comp ?k ?f2 ?items) _ = _ =>
      destruct (dict_comp k f1 items) as [mat | e] eqn:Em; cbn [bind]; [| discriminate];
      rewrite (dict_comp_mono k f1 f2 items mat); [auto | | exact Em]
  end.
  intros [s1 s2] y. destruct (sides s1) as [[l1 r1] | e]; cbn [bind]; [| discriminate].
  apply sum_gen_mono. intros [[g1 h1] [g2 h2]] z.
  destruct (term_eq (Parallel h1 h2) s2); [| auto].
  destruct (preclosure iterP c1 g1 g2) as [p | e] eqn:Ep; cbn [bind]; [| discriminate].
  now rewrite (preclosure_mono c1 c2 g1 g2 p Hc Ep).
Qed.

Lemma closure_step_mono (c1 c2 : Term -> res Term) :
  refines c1 c2 ->
  refines (closure_step iterT iterP c1) (closure_step iterT iterP c2).
Proof.
  intros Hc t. induction t; intros x.
  - intros H; exact H.
  - intros H; exact H.
  - intros H; exact H.
  - change (closure_step iterT iterP c1 (Choice t1 t2))
      with (let* a := closure_step iterT iterP c1 t1 in
            let* b := closure_step iterT iterP c1 t2 in Ok (add a b)).
    change (closure_step iterT iterP c2 (Choice t1 t2))
      with (let* a := closure_step iterT iterP c2 t1 in
            let* b := closure_step iterT iterP c2 t2 in Ok (add a b)).
    destruct (closure_step iterT iterP c1 t1) as [a | e]; cbn [bind]; [| discriminate].
    destruct (closure_step iterT iterP c1 t2) as [b | e]; cbn [bind]; [| discriminate].
    now rewrite (IHt1 a eq_refl), (IHt2 b eq_refl).
  - change (closure_step iterT iterP c1 (Sequential t1 t2))
      with (let* a := closure_step iterT iterP c1 t1 in
            let* b := closure_step iterT iterP c1 t2 in Ok (pow a b)).
    change (closure_step iterT iterP c2 (Sequential t1 t2))
      with (let* a := closure_step iterT iterP c2 t1 in
            let* b := closure_step iterT iterP c2 t2 in Ok (pow a b)).
    destruct (closure_step iterT iterP c1 t1) as [a | e]; cbn [bind]; [| discriminate].
    destruct (closure_step iterT iterP c1 t2) as [b | e]; cbn [bind]; [| discriminate].
    now rewrite (IHt1 a eq_refl), (IHt2 b eq_refl).
  - change (closure_step iterT iterP c1 (Parallel t1 t2))
      with (let* system := linear_system iterT iterP c1 t1 t2 in
            let* solution := solve iterT system in
            dict_at solution (Parallel t1 t2)).
    change (closure_step iterT iterP c2 (Parallel t1 t2))
      with (let* system := linear_system iterT iterP c2 t1 t2 in
            let* solution := solve iterT system in
            dict_at solution (Parallel t1 t2)).
    destruct (linear_system iterT iterP c1 t1 t2) as [system | e] eqn:Es;
      cbn [bind]; [| discriminate].
    rewrite (linear_system_mono c1 c2 t1 t2 system Hc Es). cbn [bind].
    intros H; exact H.
  - change (closure_step iterT iterP c1 (Star t))
      with (let* a := closure_step iterT iterP c1 t in Ok (star a)).
    change (closure_step iterT iterP c2 (Star t))
      with (let* a := closure_step iterT iterP c2 t in Ok (star a)).
    destruct (closure_step iterT iterP c1 t) as [a | e]; cbn [bind]; [| discriminate].
    now rewrite (IHt a eq_refl).
Qed.

Lemma closure_S (n : nat) : refines (closure iterT iterP n) (closure iterT iterP (S n)).
Proof.
  induction n as [|n IH].
  - intros t x. discriminate.
  - apply closure_step_mono. exact IH.
Qed.

(** Once [closure] returns, more fuel returns the same term. *)
Lemma closure_fuel (n m : nat) (t c : Term) :
  n <= m -> closure iterT iterP n t = Ok c -> closure iterT iterP m t = Ok c.
Proof.
  induction 1 as [|m Hle IH]; [auto |].
  intros H. apply closure_S. now apply IH.
Qed.

End FuelFacts.

(** ** Termination of closure *)

Lemma pow_zero_free (a b : Term) :
  zero_free a = true -> zero_free b = true ->
  zero_free (pow a b) = true /\ nwidth (pow a b) <= Nat.max (nwidth a) (nwidth b).
Proof.
  intros Ha Hb.
  destruct (pow_cases a b) as [[E ->] | [[E ->] | [[E ->] | [[E ->] | ->]]]];
    subst; try discriminate; cbn [zero_free nwidth]; rewrite ?Ha, ?Hb; split;
    try reflexivity; try assumption; lia.
Qed.

Lemma floordiv_cases (a b : Term) :
  (b = One /\ floordiv a b = a) \/ (a = One /\ floordiv a b = b) \/
  (b = Zero /\ floordiv a b = Zero) \/ (a = Zero /\ floordiv a b = Zero) \/
  floordiv a b = Parallel a b.
Proof. destruct a, b; cbn; tauto. Qed.

Lemma nwidth_floordiv (a b : Term) : nwidth (floordiv a b) <= nwidth a + nwidth b.
Proof.
  destruct (floordiv_cases a b) as [[E ->] | [[E ->] | [[E ->] | [[E ->] | ->]]]];
    subst; cbn [nwidth]; lia.
Qed.

(** Terms without [Zero] of width at most [w]. *)
Definition within (w : nat) (t : Term) : Prop := zero_free t = true /\ nwidth t <= w.

Lemma within_pow (w : nat) (a b : Term) : within w a -> within w b -> within w (pow a b).
Proof.
  intros [Za Wa] [Zb Wb]. destruct (pow_zero_free a b Za Zb). split; [assumption | lia].
Qed.

Lemma within_floordiv (w1 w2 : nat) (a b : Term) :
  within w1 a -> within w2 b -> within (w1 + w2) (floordiv a b).
Proof.
  intros [Za Wa] [Zb Wb]. pose proof (nwidth_floordiv a b).
  split; [now apply floordiv_zero_free | lia].
Qed.

Lemma within_le (w w' : nat) (t : Term) : w <= w' -> within w t -> within w' t.
Proof. intros H [Z W]. split; [assumption | lia]. Qed.

Lemma within_One (w : nat) : within w One.
Proof. split; [reflexivity | cbn; lia]. Qed.

Lemma remainder_space_within (t u : Term) :
  zero_free t = true -> In u (remainder_space t) -> within (nwidth t) u.
Proof.
  revert u. induction t; intros u Hz Hu; cbn [remainder_space zero_free nwidth] in *;
    try discriminate; try (apply andb_true_iff in Hz as [H1 H2]).
  - destruct Hu as [<- | []]. apply within_One.
  - destruct Hu as [<- | [<- | []]]; [| apply within_One]. split; [reflexivity | cbn; lia].
  - destruct Hu as [<- | Hu]; [| apply in_app_iff in Hu as [Hu | Hu]].
    + split; [cbn; now rewrite H1, H2 | reflexivity].
    + eapply within_le; [| apply IHt1; eassumption]. lia.
    + eapply within_le; [| apply IHt2; eassumption]. lia.
  - destruct Hu as [<- | Hu]; [| apply in_app_iff in Hu as [Hu | Hu]].
    + split; [cbn; now rewrite H1, H2 | reflexivity].
    + apply in_map_iff in Hu as (h & <- & Hh). apply within_pow.
      * eapply within_le; [| apply IHt1; eassumption]. lia.
      * split; [assumption | lia].
    + eapply within_le; [| apply IHt2; eassumption]. lia.
  - destruct Hu as [<- | Hu].
    + split; [cbn; now rewrite H1, H2 | reflexivity].
    + apply in_flat_map in Hu as (h1 & Hh1 & Hu).
      apply in_map_iff in Hu as (h2 & <- & Hh2).
      apply within_floordiv; [now apply IHt1 | now apply IHt2].
  - destruct Hu as [<- | [<- | Hu]].
    + split; [assumption | reflexivity].
    + apply within_One.
    + apply in_map_iff in Hu as (h & <- & Hh).
      assert (Hs : within (nwidth t) (Star t)) by (split; [assumption | reflexivity]).
      apply within_pow; [now apply IHt | exact Hs].
Qed.

Section TerminationFacts.
Variable iterT : list Term -> list Term.
Variable iterP : list (Term * Term) -> list (Term * Term).
Hypothesis iterT_perm : forall l, Permutation (iterT l) l.
Hypothesis iterP_perm : forall l, Permutation (iterP l) l.

(** Both components of a sequential splicing are without [Zero] and no
    wider than the term. *)
Lemma ssplicings_within (u g h : Term) :
  zero_free u = true -> In (g, h) (ssplicings iterP u) ->
  within (nwidth u) g /\ within (nwidth u) h.
Proof.
  revert g h. induction u; intros g h Hz H; cbn [ssplicings zero_free nwidth] in *;
    try discriminate; try (apply andb_true_iff in Hz as [H1 H2]).
  - apply set_of_In in H. destruct H as [H | []]. inversion H; subst.
    split; apply within_One.
  - apply set_of_In in H.
    assert (Hp : within 1 (Primitive letter)) by (split; [reflexivity | cbn; lia]).
    destruct H as [H | [H | []]]; inversion H; subst; split;
      try exact Hp; apply within_One.
  - apply set_union_In in H as [H | H].
    + destruct (IHu1 _ _ H1 H). split; eapply within_le; try eassumption; lia.
    + destruct (IHu2 _ _ H2 H). split; eapply within_le; try eassumption; lia.
  - assert (Hl : within (Nat.max (nwidth u1) (nwidth u2)) u1) by (split; [assumption | lia]).
    assert (Hr : within (Nat.max (nwidth u1) (nwidth u2)) u2) by (split; [assumption | lia]).
    apply set_union_In in H as [H | H]; apply set_of_In in H;
      apply in_map_iff in H as ([g' h'] & E & H);
      apply (proj1 (iterP_In iterP iterP_perm _ _)) in H;
      apply pair_equal_spec in E as [<- <-].
    + destruct (IHu2 _ _ H2 H). split; [apply within_pow; [exact Hl |] |];
        eapply within_le; try eassumption; lia.
    + destruct (IHu1 _ _ H1 H). split; [| apply within_pow; [| exact Hr]];
        eapply within_le; try eassumption; lia.
  - apply set_of_In in H. apply in_flat_map in H as ([g1 h1] & Hl & H).
    apply in_map_iff in H as ([g2 h2] & E & Hr).
    apply (proj1 (iterP_In iterP iterP_perm _ _)) in Hl.
    apply (proj1 (iterP_In iterP iterP_perm _ _)) in Hr.
    destruct (IHu1 _ _ H1 Hl), (IHu2 _ _ H2 Hr).
    apply pair_equal_spec in E as [<- <-].
    split; now apply within_floordiv.
  - assert (Hs : within (nwidth u) (Star u)) by (split; [assumption | reflexivity]).
    apply set_union_In in H as [H | H]; apply set_of_In in H.
    + apply in_map_iff in H as ([g' h'] & E & H).
      apply (proj1 (iterP_In iterP iterP_perm _ _)) in H.
      apply pair_equal_spec in E as [<- <-].
      destruct (IHu _ _ Hz H). split; now apply within_pow.
    + destruct H as [H | []]. inversion H; subst. split; apply within_One.
Qed.

Lemma dict_comp_total {A K : Type} `{Countable K} (key : A -> K)
    (f : A -> res Term) (items : list A) :
  (forall v, In v items -> exists x, f v = Ok x) ->
  exists d, dict_comp key f items = Ok d /\
            forall v, In v items -> is_Some (d !! key v).
Proof.
  unfold dict_comp. generalize (∅ : gmap K Term).
  induction items as [|w items IH] using rev_ind; intros d0 Hf.
  - exists d0. split; [reflexivity | intros v []].
  - destruct (IH d0) as (d & E & Hd).
    { intros v Hv. apply Hf, in_or_app. now left. }
    destruct (Hf w) as [x Hx]; [apply in_or_app; right; now left |].
    rewrite fold_left_app, E. cbn [fold_left bind]. rewrite Hx.
    eexists. split; [reflexivity |].
    intros v Hv. destruct (decide (key w = key v)) as [Ek | Nk].
    + rewrite Ek, lookup_insert_eq. eauto.
    + rewrite lookup_insert_ne by exact Nk. apply Hd.
      apply in_app_iff in Hv as [Hv | [-> | []]]; [assumption | congruence].
Qed.

Lemma sum_gen_total {A : Type} (f : A -> res (option Term)) (items : list A)
    (start : Term) :
  (forall v, In v items -> exists x, f v = Ok x) ->
  exists t, sum_gen f items start = Ok t.
Proof.
  unfold sum_gen. revert start.
  induction items as [|w items IH]; intros start Hf; cbn [fold_left].
  - eauto.
  - destruct (Hf w) as [x Hx]; [now left |]. rewrite Hx. cbn [bind].
    destruct x; apply IH; intros v Hv; apply Hf; now right.
Qed.

(** The value of a call that returns. *)
Definition returned (m : res Term) : Term :=
  match m with
  | Ok t => t
  | Raise _ => Zero
  end.

(** The linear system of a parallel term without [Zero] is built without
    error when the closure of the narrower terms returns; it is total and
    has the term among its symbols. *)
Lemma linear_system_Ok (c : Term -> res Term) (L R : Term) :
  zero_free L = true -> zero_free R = true ->
  (forall g, zero_free g = true -> nwidth g < nwidth L + nwidth R ->
             exists x, c g = Ok x) ->
  exists system,
    linear_system iterT iterP c L R = Ok system /\
    total_system system /\
    tmem (Parallel L R) (symbols system) = true.
Proof.
  intros ZL ZR Hc.
  destruct (remainders_inside iterP iterP_perm L) as (lrem & El & HLs & _ & HLin & _).
  destruct (remainders_inside iterP iterP_perm R) as (rrem & Er & HRs & _ & HRin & _).
  unfold linear_system. rewrite El, Er. cbn [bind].
  set (syms := tset_of
                 (flat_map (fun lprime => map (fun rprime => Parallel lprime rprime) (iterT rrem))
                    (iterT lrem))).
  assert (Hsym : forall s, In s syms ->
            exists l r, s = Parallel l r /\ within (nwidth L) l /\ within (nwidth R) r).
  { intros s Hs. apply set_of_In in Hs. apply in_flat_map in Hs as (l & Hl & Hs).
    apply in_map_iff in Hs as (r & <- & Hr).
    apply (proj1 (iterT_In iterT iterT_perm _ _)) in Hl.
    apply (proj1 (iterT_In iterT iterT_perm _ _)) in Hr.
    exists l, r. split; [reflexivity |].
    split; apply remainder_space_within; auto. }
  destruct (dict_comp_total str
              (fun symbol => let* (l, r) := sides symbol in Ok (floordiv l r))
              (iterT syms)) as (vec & Ev & Hv).
  { intros s Hs. apply (proj1 (iterT_In iterT iterT_perm _ _)) in Hs.
    destruct (Hsym s Hs) as (l & r & -> & _). cbn. eauto. }
  rewrite Ev. cbn [bind].
  match goal with
  | |- context [dict_comp ?k ?f ?items] =>
      destruct (dict_comp_total k f items) as (mat & Em & Hm)
  end.
  { intros [s1 s2] Hs. apply in_flat_map in Hs as (s1' & H1 & Hs).
    apply in_map_iff in Hs as (s2' & E & H2). apply pair_equal_spec in E as [-> ->].
    apply (proj1 (iterT_In iterT iterT_perm _ _)) in H1.
    destruct (Hsym s1 H1) as (l1 & r1 & -> & [Zl Wl] & [Zr Wr]).
    cbn [sides bind]. apply sum_gen_total.
    intros [[g1 h1] [g2 h2]] Hp.
    destruct (term_eq (Parallel h1 h2) s2); [| eauto].
    apply in_flat_map in Hp as (p1 & Hp1 & Hp).
    apply in_map_iff in Hp as (p2 & E & Hp2). apply pair_equal_spec in E as [-> ->].
    apply (proj1 (iterP_In iterP iterP_perm _ _)) in Hp1.
    apply (proj1 (iterP_In iterP iterP_perm _ _)) in Hp2.
    destruct (ssplicings_within l1 g1 h1 Zl Hp1) as [[Zg1 Wg1] _].
    destruct (ssplicings_within r1 g2 h2 Zr Hp2) as [[Zg2 Wg2] _].
    rewrite (preclosure_value iterP iterP_perm g1 g2 c (fun g => returned (c g)) Zg1 Zg2).
    { cbn [bind]. eauto. }
    intros g Zg Wg. cbn [nwidth] in Wg.
    destruct (Hc g Zg) as [x Hx]; [lia |]. now rewrite Hx. }
  rewrite Em. cbn [bind]. eexists. split; [reflexivity |]. split.
  - constructor; cbn [symbols matrix vector].
    + apply (set_of_NoDup term_eq str term_eq_key).
    + intros s1 s2 H1 H2. apply (Hm (s1, s2)).
      apply in_flat_map. exists s1.
      split; [now apply (iterT_In iterT iterT_perm) |].
      apply in_map. now apply (iterT_In iterT iterT_perm).
    + intros s0 H1. apply Hv. now apply (iterT_In iterT iterT_perm).
  - cbn [symbols]. unfold syms. rewrite (set_of_mem term_eq str term_eq_key).
    apply (mem_In term_eq str term_eq_key).
    apply in_flat_map. exists L. split; [now apply (iterT_In iterT iterT_perm) |].
    apply in_map. now apply (iterT_In iterT iterT_perm).
Qed.

(** The closure of a term without [Zero] returns once the fuel exceeds the
    width of the term. *)
Lemma closure_terminates (n : nat) :
  forall t, zero_free t = true -> nwidth t < n ->
  exists c, closure iterT iterP n t = Ok c.
Proof.
  induction n as [|n IHn]; intros t; [lia |].
  induction t; intros Hz Hw; cbn [zero_free nwidth] in *; try discriminate;
    try (apply andb_true_iff in Hz as [H1 H2]).
  - cbn. eauto.
  - cbn. eauto.
  - destruct IHt1 as [a Ea]; [assumption | lia |].
    destruct IHt2 as [b Eb]; [assumption | lia |].
    rewrite closure_Choice, Ea, Eb. cbn. eauto.
  - destruct IHt1 as [a Ea]; [assumption | lia |].
    destruct IHt2 as [b Eb]; [assumption | lia |].
    rewrite closure_Sequential, Ea, Eb. cbn. eauto.
  - clear IHt1 IHt2.
    destruct (linear_system_Ok (closure iterT iterP n) t1 t2 H1 H2)
      as (system & Es & Ht & Hin).
    { intros g Zg Wg. apply IHn; [assumption | lia]. }
    change (closure iterT iterP (S n) (Parallel t1 t2))
      with (let* system := linear_system iterT iterP (closure iterT iterP n) t1 t2 in
            let* solution := solve iterT system in
            dict_at solution (Parallel t1 t2)).
    rewrite Es. cbn [bind].
    assert (Hne : symbols system <> []).
    { intros C. rewrite C in Hin. discriminate. }
    destruct (solve_spec_by_size iterT iterT_perm _ system eq_refl Hne Ht)
      as (e & rest & X & _ & EX & HX & _).
    rewrite EX. cbn [bind].
    apply (mem_key term_eq str term_eq_key) in Hin.
    apply in_map_iff in Hin as (s0 & E0 & Hs0).
    destruct (HX s0 Hs0) as [x Hx]. rewrite E0 in Hx.
    unfold dict_at. rewrite Hx. cbn. eauto.
  - destruct IHt as [a Ea]; [assumption | lia |].
    rewrite closure_Star, Ea. cbn. eauto.
Qed.



Lemma closure_zero_at_top (n : nat) (t : Term) :
  zero_at_top t -> nwidth t < n -> exists c, closure iterT iterP n t = Ok c.
Proof.
  intros [-> | Hz] Hn; [| now apply closure_terminates].
  destruct n; [lia |]. cbn. eauto.
Qed.

(** C8, as the code has it: for terms [a] and [b] with no [Zero] below
    the top, as the constructors build them, and fuel above their widths,
    [a.closure()] and [b.closure()] return; the closure of [a ** b] is
    [a.closure() ** b.closure()] and the closure of [a.star()] is
    [a.closure().star()]; the closure of [a + b] is
    [a.closure() + b.closure()] when [a + b] is the choice of [a] and [b],
    when [a] or [b] is [Zero], when [a] and [b] are the same term, and when
    [a] and [b] are built by the constructors without parallel composition. *)
Theorem closure_commutes (n : nat) (a b : Term)
    (Ha : zero_at_top a) (Hb : zero_at_top b)
    (Hna : nwidth a < n) (Hnb : nwidth b < n) :
  exists ca cb,
    closure iterT iterP n a = Ok ca /\
    closure iterT iterP n b = Ok cb /\
    closure iterT iterP n (pow a b) = Ok (pow ca cb) /\
    closure iterT iterP n (star a) = Ok (star ca) /\
    (add a b = Choice a b \/ a = Zero \/ b = Zero \/ a = b \/
     (built a /\ built b /\ parallel_free a = true /\ parallel_free b = true) ->
     closure iterT iterP n (add a b) = Ok (add ca cb)).
Proof.
  destruct (closure_zero_at_top n a Ha Hna) as [ca Eca].
  destruct (closure_zero_at_top n b Hb Hnb) as [cb Ecb].
  exists ca, cb. split; [exact Eca |]. split; [exact Ecb |].
  now apply closure_of_constructors.
Qed.

End TerminationFacts.

Lemma closure_commutes_witness :
  let a := floordiv (Primitive "a") (Primitive "b") in
  let b := star (Primitive "c") in
  exists ca cb,
    closure id_iterT id_iterP 3 a = Ok ca /\
    closure id_iterT id_iterP 3 b = Ok cb /\
    closure id_iterT id_iterP 3 (pow a b) = Ok (pow ca cb).
Proof.
  intros a b.
  destruct (closure_commutes id_iterT id_iterP id_iterT_perm id_iterP_perm 3 a b)
    as (ca & cb & Ea & Eb & Ep & _).
  - right. reflexivity.
  - right. reflexivity.
  - cbn. lia.
  - cbn. lia.
  - exists ca, cb. repeat split; assumption.
Defined.

Lemma preclosure_narrower_witness :
  preclosure id_iterP (closure id_iterT id_iterP 2) (Primitive "a") (Primitive "b")
  = Ok (Parallel (Primitive "a") (Primitive "b")).
Proof.
  destruct (preclosure_narrower id_iterP id_iterP_perm (Primitive "a") (Primitive "b")
              eq_refl eq_refl)
    as (_ & _ & E & _).
  rewrite (E (closure id_iterT id_iterP 2)
             (fun g => returned (closure id_iterT id_iterP 2 g))).
  - vm_compute. reflexivity.
  - intros g Hg Hw.
    destruct (closure_terminates id_iterT id_iterP id_iterT_perm id_iterP_perm 2 g Hg Hw)
      as [c Hc].
    now rewrite Hc.
Defined.

(** * Further properties of the code *)

(** ** Containment and absorption in sums *)

(** X1: every term contains itself, so a sum of a term with itself is the
    term; a choice absorbs each of its two sides, and a parallel
    composition absorbs the composition of its sides in the other order. *)
Theorem add_absorbs (a l r : Term) :
  contains a a = true /\
  add a a = a /\
  add (Choice l r) l = Choice l r /\
  add (Choice l r) r = Choice l r /\
  contains (Parallel l r) (Parallel r l) = true /\
  add (Parallel l r) (Parallel r l) = Parallel l r.
Proof.
  assert (Hl : contains (Choice l r) l = true).
  { cbn [contains]. rewrite contains_refl. now rewrite orb_true_r. }
  assert (Hr : contains (Choice l r) r = true).
  { cbn [contains]. rewrite contains_refl. now rewrite orb_true_r. }
  assert (Hp : contains (Parallel l r) (Parallel r l) = true).
  { cbn [contains]. rewrite !contains_refl. apply orb_true_r. }
  split; [apply contains_refl |].
  split; [apply add_same |].
  split; [| split; [| split; [exact Hp |]]].
  - clear Hr Hp. destruct l; cbn [add term_add]; rewrite ?Hl; reflexivity.
  - clear Hl Hp. destruct r; cbn [add term_add]; rewrite ?Hr; reflexivity.
  - cbn [add term_add]. now rewrite Hp.
Qed.

(** ** Where width is defined *)

Lemma is_trivial_cases (t : Term) :
  is_trivial t = Ok false \/ is_trivial t = Raise TypeError.
Proof.
  induction t; cbn [is_trivial]; auto;
    destruct IHt1 as [-> | ->]; cbn [bind]; auto.
Qed.

Lemma width_with_Zero (t : Term) : zero_free t = false -> width t = Raise TypeError.
Proof.
  induction t; cbn [zero_free]; intros Hz; try discriminate.
  - reflexivity.
  - cbn [width is_trivial].
    destruct (is_trivial_cases t1) as [E1 | E1]; rewrite E1; cbn [bind]; [| reflexivity].
    cbn [nontrivial_width].
    destruct (zero_free t1) eqn:Z1.
    + rewrite (width_zero_free t1 Z1), (IHt2 Hz). reflexivity.
    + now rewrite (IHt1 eq_refl).
  - cbn [width is_trivial].
    destruct (is_trivial_cases t1) as [E1 | E1]; rewrite E1; cbn [bind]; [| reflexivity].
    destruct (is_trivial_cases t2) as [E2 | E2]; rewrite E2; cbn [bind]; [| reflexivity].
    cbn [nontrivial_width].
    destruct (zero_free t1) eqn:Z1.
    + rewrite (width_zero_free t1 Z1), (IHt2 Hz). reflexivity.
    + now rewrite (IHt1 eq_refl).
  - cbn [width is_trivial].
    destruct (is_trivial_cases t1) as [E1 | E1]; rewrite E1; cbn [bind]; [| reflexivity].
    destruct (is_trivial_cases t2) as [E2 | E2]; rewrite E2; cbn [bind]; [| reflexivity].
    cbn [nontrivial_width].
    destruct (zero_free t1) eqn:Z1.
    + rewrite (width_zero_free t1 Z1), (IHt2 Hz). reflexivity.
    + now rewrite (IHt1 eq_refl).
  - cbn [width is_trivial bind nontrivial_width]. now apply IHt.
Qed.

Lemma width_cases (t : Term) :
  width t = if zero_free t then Ok (nwidth t) else Raise TypeError.
Proof.
  destruct (zero_free t) eqn:Z; [now apply width_zero_free | now apply width_with_Zero].
Qed.

(** X2: [is_trivial] never returns [True]: it returns [False] or raises
    [TypeError].  [width] returns exactly on the terms in which [Zero]
    does not occur, where it is 0 for [One], 1 for a primitive, the maximum
    over a choice or a sequence, the sum over a parallel composition and
    the width of the argument of a star; on every other term it raises
    [TypeError]. *)
Theorem width_defined (t : Term) :
  is_trivial t <> Ok true /\
  (zero_free t = true -> is_trivial t = Ok false /\ width t = Ok (nwidth t)) /\
  (zero_free t = false -> width t = Raise TypeError).
Proof.
  split; [| split].
  - destruct (is_trivial_cases t) as [E | E]; rewrite E; discriminate.
  - intros Z. split; [now apply is_trivial_zero_free | now apply width_zero_free].
  - apply width_with_Zero.
Qed.

(** ** The preclosure of a term in which Zero occurs *)

(** A sum over at least one item raises when computing every item
    raises. *)
Lemma sum_gen_raises {A : Type} (f : A -> res (option Term)) (items : list A)
    (start : Term) (e : error) :
  items <> [] -> (forall v, In v items -> f v = Raise e) ->
  sum_gen f items start = Raise e.
Proof.
  unfold sum_gen. destruct items as [|v items]; [congruence |].
  intros _ Hf. cbn [fold_left bind]. rewrite (Hf v) by now left. cbn [bind].
  clear Hf. induction items as [|w items IH]; cbn [fold_left bind]; [reflexivity | exact IH].
Qed.

Section PreclosureZero.
Variable iterP : list (Term * Term) -> list (Term * Term).
Hypothesis iterP_perm : forall l, Permutation (iterP l) l.

Lemma psplicings_nonempty (t : Term) : iterP (psplicings iterP t) <> [].
Proof.
  intros E. pose proof (iterP_perm (psplicings iterP t)) as P. rewrite E in P.
  apply Permutation_nil in P.
  destruct (psplicings_trivial iterP t) as [H _]. rewrite P in H. discriminate H.
Qed.

(** C2 does not hold of the code where [Zero] occurs in [l] or [r]: the
    width of [P = Parallel(l, r)] is then not defined, since
    [Zero.is_trivial] takes no [self], and [P.preclosure()], which compares
    the width of each component of each splicing with the width of [P] and
    has at least the splicing [(P, One)] to look at, raises [TypeError]
    instead of returning the sum. *)
Theorem preclosure_Zero_raises (closure : Term -> res Term) (left right : Term)
    (Hzero : zero_free left && zero_free right = false) :
  width (Parallel left right) = Raise TypeError /\
  preclosure iterP closure left right = Raise TypeError.
Proof.
  assert (Hw : width (Parallel left right) = Raise TypeError).
  { apply width_with_Zero. exact Hzero. }
  split; [exact Hw |].
  unfold preclosure. apply sum_gen_raises; [apply psplicings_nonempty |].
  intros [g h] _. rewrite (width_cases g).
  destruct (zero_free g); cbn [bind]; [| reflexivity].
  rewrite Hw. reflexivity.
Qed.

End PreclosureZero.

Lemma preclosure_Zero_raises_witness :
  width (Parallel Zero (Primitive "a")) = Raise TypeError /\
  preclosure id_iterP (closure id_iterT id_iterP 2) Zero (Primitive "a")
  = Raise TypeError.
Proof.
  apply (preclosure_Zero_raises id_iterP id_iterP_perm
           (closure id_iterT id_iterP 2) Zero (Primitive "a")).
  reflexivity.
Defined.

(** X3: where the widths of [a] and [b] are defined, so are the widths
    of what the constructors build from them: [a // b] has the sum of the
    widths, [a ** b] their maximum, [a.star()] the width of [a], and
    [a + b] at most their maximum. *)
Theorem width_of_constructors (a b : Term) (wa wb : nat)
    (Ha : width a = Ok wa) (Hb : width b = Ok wb) :
  width (floordiv a b) = Ok (wa + wb) /\
  width (pow a b) = Ok (Nat.max wa wb) /\
  width (star a) = Ok wa /\
  exists w, width (add a b) = Ok w /\ w <= Nat.max wa wb.
Proof.
  rewrite width_cases in Ha, Hb.
  destruct (zero_free a) eqn:Za; [| discriminate].
  destruct (zero_free b) eqn:Zb; [| discriminate].
  inversion Ha; inversion Hb; subst wa wb. clear Ha Hb.
  split; [| split; [| split]].
  - rewrite width_cases, (floordiv_zero_free a b Za Zb). f_equal.
    destruct (floordiv_cases a b) as [[E ->] | [[E ->] | [[E _] | [[E _] | ->]]]];
      subst; try discriminate; cbn [nwidth]; lia.
  - destruct (pow_zero_free a b Za Zb) as [Zp _].
    rewrite width_cases, Zp. f_equal.
    destruct (pow_cases a b) as [[E ->] | [[E ->] | [[E _] | [[E _] | ->]]]];
      subst; try discriminate; cbn [nwidth]; lia.
  - rewrite width_cases.
    destruct a; try discriminate; cbn [star zero_free nwidth] in *;
      rewrite ?Za; reflexivity.
  - exists (nwidth (add a b)).
    assert (H : zero_free (add a b) = true /\ nwidth (add a b) <= Nat.max (nwidth a) (nwidth b)).
    { destruct (add_cases a b) as [-> | [-> | [-> | (l & r & s & E & Hs & ->)]]].
      - split; [assumption | lia].
      - split; [assumption | lia].
      - split; [cbn; now rewrite Za, Zb | reflexivity].
      - assert (Hseq : zero_free (Sequential l r) = true /\
                       nwidth (Sequential l r) <= Nat.max (nwidth a) (nwidth b)).
        { destruct E as [-> | ->]; split; try assumption; lia. }
        destruct Hseq as [Zs Ws]. cbn [zero_free nwidth] in Zs, Ws.
        apply andb_true_iff in Zs as [Zl Zr].
        destruct (star_side_cases _ _ _ Hs) as [-> | ->]; split; try assumption; lia. }
    destruct H as [Z W]. split; [| exact W]. now rewrite width_cases, Z.
Qed.

Lemma width_of_constructors_witness :
  width (floordiv (Primitive "a") (star (Primitive "b"))) = Ok 2.
Proof.
  apply (width_of_constructors (Primitive "a") (star (Primitive "b")) 1 1);
    reflexivity.
Defined.

(** ** The parallel constructor and the star *)

Lemma str_Parallel (l r : Term) :
  str (Parallel l r) = bracket str l CParallel +:+ "‖" +:+ bracket str r CParallel.
Proof. reflexivity. Qed.

Lemma str_Parallel_assoc (a b c : Term) :
  str (Parallel (Parallel a b) c) = str (Parallel a (Parallel b c)).
Proof.
  rewrite (str_Parallel (Parallel a b) c), (str_Parallel a (Parallel b c)).
  change (bracket str (Parallel a b) CParallel) with (str (Parallel a b)).
  change (bracket str (Parallel b c) CParallel) with (str (Parallel b c)).
  rewrite !str_Parallel, !append_assoc. reflexivity.
Qed.

(** X4: the parallel constructor is associative up to the equality of
    terms: [(a // b) // c] and [a // (b // c)] have the same printed form,
    since a parallel composition inside a parallel composition prints
    without brackets. *)
Theorem floordiv_assoc_eq (a b c : Term) :
  term_eq (floordiv (floordiv a b) c) (floordiv a (floordiv b c)) = true.
Proof.
  apply term_eq_true.
  destruct a, b, c; cbn [floordiv]; try reflexivity; apply str_Parallel_assoc.
Qed.

Lemma str_Star_not_One (b : Term) : term_eq One (Star b) = false.
Proof.
  apply term_eq_false. rewrite str_Star. cbn [str].
  destruct (bracket str b CStar) as [|c s]; cbn; [discriminate |].
  intros H. inversion H as [[Hc Hs]]. destruct s; discriminate.
Qed.

(** X5: a star is nullable and absorbs [One] on either side: for every
    [a], [a.star() + One] and [One + a.star()] are [a.star()], and taking
    the star twice is taking it once. *)
Theorem star_absorbs_One (a : Term) :
  nullable (star a) = true /\
  add (star a) One = star a /\
  add One (star a) = star a /\
  star (star a) = star a.
Proof.
  assert (H : star a = One \/ exists b, star a = Star b).
  { destruct a; cbn; eauto. }
  split; [| split; [| split]].
  - destruct H as [-> | [b ->]]; reflexivity.
  - destruct H as [-> | [b ->]]; reflexivity.
  - destruct H as [-> | [b ->]]; [reflexivity |].
    cbn [add term_add contains]. now rewrite str_Star_not_One.
  - apply star_idempotent.
Qed.

(** ** The shape of built terms *)

Fixpoint size (t : Term) : nat :=
  match t with
  | Zero | One | Primitive _ => 1
  | Choice l r | Sequential l r | Parallel l r => S (size l + size r)
  | Star b => S (size b)
  end.

Definition unit_or_Zero (t : Term) : bool :=
  match t with
  | Zero | One => true
  | _ => false
  end.

Lemma rebuilt_subterms (t s : Term) :
  rebuilt t -> In s (proper_subterms t) -> rebuilt s.
Proof.
  induction t; cbn [rebuilt proper_subterms]; intros Hr Hs; try contradiction.
  - destruct Hr as (H1 & H2 & _).
    destruct Hs as [<- | [<- | Hs]]; try assumption.
    apply in_app_iff in Hs as [Hs | Hs]; auto.
  - destruct Hr as (H1 & H2 & _).
    destruct Hs as [<- | [<- | Hs]]; try assumption.
    apply in_app_iff in Hs as [Hs | Hs]; auto.
  - destruct Hr as (H1 & H2 & _).
    destruct Hs as [<- | [<- | Hs]]; try assumption.
    apply in_app_iff in Hs as [Hs | Hs]; auto.
  - destruct Hr as (H1 & _).
    destruct Hs as [<- | Hs]; auto.
Qed.

Lemma pow_Sequential_operands (l r : Term) :
  pow l r = Sequential l r -> unit_or_Zero l = false /\ unit_or_Zero r = false.
Proof.
  intros E. destruct l, r; cbn [pow] in E; try discriminate;
    try (split; reflexivity);
    apply (f_equal size) in E; cbn [size] in E; lia.
Qed.

Lemma floordiv_Parallel_operands (l r : Term) :
  floordiv l r = Parallel l r -> unit_or_Zero l = false /\ unit_or_Zero r = false.
Proof.
  intros E. destruct l, r; cbn [floordiv] in E; try discriminate;
    try (split; reflexivity);
    apply (f_equal size) in E; cbn [size] in E; lia.
Qed.

Lemma star_Star_operand (b : Term) :
  star b = Star b -> unit_or_Zero b = false /\ is_Star b = false.
Proof.
  intros E. destruct b; cbn [star] in E; try discriminate;
    try (split; reflexivity);
    apply (f_equal size) in E; cbn [size] in E; lia.
Qed.

(** X6: in a term built with the constructors, at every depth, a sequence
    and a parallel composition have no operand that is [Zero] or [One], a
    star is not the star of [Zero], of [One] or of a star, and a choice is
    the sum of its two sides. *)
Theorem built_normal (t s : Term)
    (Hbuilt : built t) (Hs : In s (t :: proper_subterms t)) :
  match s with
  | Sequential l r => unit_or_Zero l = false /\ unit_or_Zero r = false
  | Parallel l r => unit_or_Zero l = false /\ unit_or_Zero r = false
  | Star b => unit_or_Zero b = false /\ is_Star b = false
  | Choice l r => add l r = s
  | _ => True
  end.
Proof.
  assert (Hr : rebuilt s).
  { apply built_rebuilt in Hbuilt. destruct Hs as [<- | Hs]; [assumption |].
    eapply rebuilt_subterms; eassumption. }
  destruct s; cbn [rebuilt] in Hr; try exact I.
  - now destruct Hr as (_ & _ & E).
  - destruct Hr as (_ & _ & E). now apply pow_Sequential_operands.
  - destruct Hr as (_ & _ & E). now apply floordiv_Parallel_operands.
  - destruct Hr as (_ & E). now apply star_Star_operand.
Qed.

Lemma built_normal_witness :
  let b := Primitive "b" in
  unit_or_Zero (Star b) = false /\ unit_or_Zero b = false.
Proof.
  intros b.
  apply (built_normal (add (Primitive "a") (pow (star (star b)) (pow b One)))
           (Sequential (Star b) b)).
  - repeat constructor.
  - vm_compute. tauto.
Defined.

Lemma add_cases_One (a b : Term) :
  add a b = a \/ add a b = b \/ add a b = Choice a b \/ a = One \/ b = One.
Proof.
  assert (H : term_add a b = a \/ term_add a b = b \/ term_add a b = Choice a b).
  { destruct (term_add_cases a b) as [H | [H | [H _]]]; auto. }
  unfold add. destruct a; try tauto; destruct b; tauto.
Qed.

(** X7: [nullable] follows the constructors: [a ** b] and [a // b] are
    nullable exactly when [a] and [b] both are, [a.star()] always is, and
    [a + b] is nullable only when [a] or [b] is. *)
Theorem nullable_of_constructors (a b : Term) :
  nullable (pow a b) = nullable a && nullable b /\
  nullable (floordiv a b) = nullable a && nullable b /\
  nullable (star a) = true /\
  (nullable (add a b) = true -> nullable a || nullable b = true).
Proof.
  split; [| split; [| split]].
  - destruct a, b; cbn [pow nullable andb]; rewrite ?andb_true_r, ?andb_false_r;
      reflexivity.
  - destruct a, b; cbn [floordiv nullable andb]; rewrite ?andb_true_r, ?andb_false_r;
      reflexivity.
  - destruct a; reflexivity.
  - destruct (add_cases_One a b) as [-> | [-> | [-> | [-> | ->]]]].
    + intros ->. reflexivity.
    + intros ->. apply orb_true_r.
    + intros H. exact H.
    + reflexivity.
    + intros _. apply orb_true_r.
Qed.

Section BuiltClosureFacts.
Variable iterT : list Term -> list Term.
Variable iterP : list (Term * Term) -> list (Term * Term).

(** X8: the closure of a term built with the constructors and without
    parallel composition is the term itself. *)
Theorem closure_parallel_free (n : nat) (t : Term)
    (Hbuilt : built t) (Hfree : parallel_free t = true) :
  closure iterT iterP (S n) t = Ok t.
Proof.
  apply built_rebuilt in Hbuilt.
  now apply closure_rebuilt.
Qed.

End BuiltClosureFacts.

Lemma closure_parallel_free_witness :
  let t := add (pow (Primitive "a") (star (Primitive "b"))) (Primitive "c") in
  closure id_iterT id_iterP 1 t = Ok t.
Proof.
  intros t. apply (closure_parallel_free id_iterT id_iterP 0 t).
  - repeat constructor.
  - reflexivity.
Defined.

(** ** Widths along splicings and remainders *)

Section WidthFacts.
Variable iterT : list Term -> list Term.
Variable iterP : list (Term * Term) -> list (Term * Term).
Hypothesis iterT_perm : forall l, Permutation (iterT l) l.
Hypothesis iterP_perm : forall l, Permutation (iterP l) l.

(** The two components of a parallel splicing share the width of the term. *)
Lemma psplicings_additive (t g h : Term) :
  zero_free t = true -> In (g, h) (psplicings iterP t) ->
  nwidth g + nwidth h <= nwidth t.
Proof.
  revert g h. induction t; intros g h Hz H;
    apply psplicings_In in H as [H | [H | H]];
    try (apply pair_equal_spec in H as [-> ->]; cbn [nwidth]; lia);
    cbn [nontrivial_psplicings] in H; try contradiction;
    cbn [zero_free] in Hz; try (apply andb_true_iff in Hz as [H1 H2]);
    cbn [nwidth].
  - apply set_union_In in H as [H | H].
    + specialize (IHt1 _ _ H1 H). lia.
    + specialize (IHt2 _ _ H2 H). lia.
  - apply set_union_In in H as [H | H]; apply set_of_In in H;
      apply filter_In in H as [H _]; apply (proj1 (iterP_In iterP iterP_perm _ _)) in H.
    + specialize (IHt1 _ _ H1 H). lia.
    + specialize (IHt2 _ _ H2 H). lia.
  - apply set_of_In in H. apply in_flat_map in H as ([g1 h1] & Hl & H).
    apply in_map_iff in H as ([g2 h2] & E & Hr).
    apply (proj1 (iterP_In iterP iterP_perm _ _)) in Hl.
    apply (proj1 (iterP_In iterP iterP_perm _ _)) in Hr.
    apply pair_equal_spec in E as [<- <-].
    specialize (IHt1 _ _ H1 Hl). specialize (IHt2 _ _ H2 Hr).
    pose proof (nwidth_floordiv g1 g2). pose proof (nwidth_floordiv h1 h2). lia.
  - now apply IHt.
Qed.

(** X9: on a term in which [Zero] does not occur, the two components
    of a sequential splicing are free of [Zero] and each no wider than the
    term, and the two components of a parallel splicing are free of [Zero]
    and their widths add up to at most the width of the term. *)
Theorem splicings_widths (t g h : Term) (Hzero : zero_free t = true) :
  (In (g, h) (ssplicings iterP t) ->
   zero_free g = true /\ zero_free h = true /\
   nwidth g <= nwidth t /\ nwidth h <= nwidth t) /\
  (In (g, h) (psplicings iterP t) ->
   zero_free g = true /\ zero_free h = true /\
   nwidth g + nwidth h <= nwidth t).
Proof.
  split; intros H.
  - destruct (ssplicings_within iterP iterP_perm t g h Hzero H) as [[Zg Wg] [Zh Wh]].
    repeat split; assumption.
  - destruct (psplicings_zero_free iterP iterP_perm t Hzero g h H) as [Zg Zh].
    repeat split; try assumption.
    now apply psplicings_additive.
Qed.

(** X10: the remainders of a term in which [Zero] does not occur are
    free of [Zero] and no wider than the term. *)
Theorem remainders_widths (t : Term) (Hzero : zero_free t = true) :
  exists R,
    remainders iterP t = Ok R /\
    forall u, In u R -> zero_free u = true /\ nwidth u <= nwidth t.
Proof.
  destruct (remainders_inside iterP iterP_perm t) as (R & E & Hspace & _).
  exists R. split; [exact E |].
  intros u Hu. apply (remainder_space_within t u Hzero). now apply Hspace.
Qed.

End WidthFacts.

Lemma splicings_widths_witness :
  let t := floordiv (Primitive "a") (star (Primitive "b")) in
  nwidth (pow (Primitive "b") (star (Primitive "b"))) <= nwidth t.
Proof.
  intros t.
  apply (splicings_widths id_iterP id_iterP_perm t
           (floordiv (Primitive "a") (star (Primitive "b")))
           (pow (Primitive "b") (star (Primitive "b")))).
  - reflexivity.
  - vm_compute. tauto.
Defined.

Lemma remainders_widths_witness :
  exists R,
    remainders id_iterP (floordiv (Primitive "a") (star (Primitive "b"))) = Ok R /\
    forall u, In u R -> zero_free u = true /\ nwidth u <= 2.
Proof.
  apply (remainders_widths id_iterP id_iterP_perm
           (floordiv (Primitive "a") (star (Primitive "b")))).
  reflexivity.
Defined.

(** ** What closure returns *)

(** [Zero], or a term without [Zero] of width at most [w]. *)
Definition loosely (w : nat) (t : Term) : Prop := t = Zero \/ within w t.

Lemma within_add (w : nat) (a b : Term) : within w a -> within w b -> within w (add a b).
Proof.
  intros [Za Wa] [Zb Wb].
  destruct (add_cases a b) as [-> | [-> | [-> | (l & r & s & E & Hs & ->)]]].
  - now split.
  - now split.
  - split; [cbn; now rewrite Za, Zb | cbn; lia].
  - assert (Hseq : within w (Sequential l r)) by (destruct E as [<- | <-]; now split).
    destruct Hseq as [Zs Ws]. cbn [zero_free nwidth] in Zs, Ws.
    apply andb_true_iff in Zs as [Zl Zr].
    destruct (star_side_cases _ _ _ Hs) as [-> | ->]; split; try assumption; lia.
Qed.

Lemma within_add_loosely (w : nat) (a b : Term) :
  within w a -> loosely w b -> within w (add a b).
Proof.
  intros Ha [-> | Hb]; [now rewrite add_Zero_r | now apply within_add].
Qed.

Lemma loosely_add (w : nat) (a b : Term) :
  loosely w a -> loosely w b -> loosely w (add a b).
Proof.
  intros [-> | Ha] Hb; [now rewrite add_Zero_l |].
  right. now apply within_add_loosely.
Qed.

Lemma loosely_pow (w : nat) (a b : Term) :
  loosely w a -> loosely w b -> loosely w (pow a b).
Proof.
  intros [-> | Ha] [-> | Hb].
  - now left.
  - left. apply pow_Zero.
  - left. apply pow_Zero.
  - right. now apply within_pow.
Qed.

Lemma within_star (w : nat) (a : Term) : loosely w a -> within w (star a).
Proof.
  intros [-> | [Za Wa]]; [apply within_One |].
  destruct a; cbn [star zero_free nwidth] in *; try discriminate;
    try apply within_One; split; cbn [zero_free nwidth]; assumption.
Qed.

Lemma sum_within (w : nat) (items : list Term) (start : Term) :
  within w start -> (forall y, In y items -> within w y) -> within w (sum items start).
Proof.
  unfold sum. revert start.
  induction items as [|y items IH]; intros start Hs Hi; cbn [fold_left]; [exact Hs |].
  apply IH.
  - apply within_add; [exact Hs | apply Hi; now left].
  - intros z Hz. apply Hi. now right.
Qed.

Lemma sum_gen_inv {A : Type} (P Q : Term -> Prop) (f : A -> res (option Term))
    (items : list A) (start x : Term) :
  (forall a y, P a -> Q y -> P (add a y)) ->
  P start ->
  (forall v y, In v items -> f v = Ok (Some y) -> Q y) ->
  sum_gen f items start = Ok x -> P x.
Proof.
  intros Hadd Hstart. unfold sum_gen.
  assert (Hacc : forall a, Ok start = Ok a -> P a) by (intros a E; now injection E as <-).
  revert Hacc. generalize (Ok start) as acc.
  induction items as [|v items IH]; intros acc Hacc Hf; cbn [fold_left].
  - apply Hacc.
  - apply IH.
    + intros a'. destruct acc as [a | e]; cbn [bind]; [| discriminate].
      destruct (f v) as [[y |] | e] eqn:E; cbn [bind]; intros E'; inversion E'; subst.
      * apply Hadd; [now apply Hacc | apply (Hf v); [now left | exact E]].
      * now apply Hacc.
    + intros w y Hw. apply Hf. now right.
Qed.

Lemma dict_comp_inv {A K : Type} `{Countable K} (P : Term -> Prop) (key : A -> K)
    (f : A -> res Term) (items : list A) (d : gmap K Term) :
  (forall v x, In v items -> f v = Ok x -> P x) ->
  dict_comp key f items = Ok d ->
  forall k x, d !! k = Some x -> P x.
Proof.
  unfold dict_comp.
  assert (Hacc : forall d0 : gmap K Term, Ok (∅ : gmap K Term) = Ok d0 ->
                 forall k x, d0 !! k = Some x -> P x).
  { intros d0 E k x. injection E as <-. now rewrite lookup_empty. }
  revert Hacc. generalize (Ok (∅ : gmap K Term)) as acc.
  induction items as [|v items IH]; intros acc Hacc Hf; cbn [fold_left].
  - apply Hacc.
  - apply IH.
    + intros d'. destruct acc as [d0 | e]; cbn [bind]; [| discriminate].
      destruct (f v) as [y | e] eqn:E; cbn [bind]; intros E'; inversion E'; subst.
      intros k x. destruct (decide (key v = k)) as [<- | N].
      * rewrite lookup_insert_eq. intros Ex. inversion Ex; subst.
        apply (Hf v); [now left | exact E].
      * rewrite lookup_insert_ne by exact N. now apply Hacc.
    + intros w y Hw. apply Hf. now right.
Qed.

Lemma matrix_at_Ok (m : gmap (string * string) Term) (s1 s2 x : Term) :
  matrix_at m s1 s2 = Ok x -> m !! (str s1, str s2) = Some x.
Proof. unfold matrix_at. destruct (m !! (str s1, str s2)); now inversion 1. Qed.

Lemma dict_at_Ok (d : gmap string Term) (s x : Term) :
  dict_at d s = Ok x -> d !! str s = Some x.
Proof. unfold dict_at. destruct (d !! str s); now inversion 1. Qed.

Tactic Notation "step_bind" hyp(H) "as" ident(x) ident(E) :=
  match type of H with
  | bind ?m _ = _ =>
      destruct m as [x | ?] eqn:E; cbn [bind] in H; [| discriminate H]
  end.

Section ClosureResultFacts.
Variable iterT : list Term -> list Term.
Variable iterP : list (Term * Term) -> list (Term * Term).
Hypothesis iterT_perm : forall l, Permutation (iterT l) l.
Hypothesis iterP_perm : forall l, Permutation (iterP l) l.

(** The closure [c] returns, on the terms narrower than [w], a term
    without [Zero] that is no wider than its argument. *)
Definition closes_below (w : nat) (c : Term -> res Term) : Prop :=
  forall g, zero_free g = true -> nwidth g < w ->
  exists x, c g = Ok x /\ within (nwidth g) x.

Lemma preclosure_within (c : Term -> res Term) (l r : Term) :
  zero_free l = true -> zero_free r = true ->
  closes_below (nwidth l + nwidth r) c ->
  exists p, preclosure iterP c l r = Ok p /\ within (nwidth l + nwidth r) p.
Proof.
  intros Zl Zr Hc.
  assert (Zs : zero_free (Parallel l r) = true) by (cbn; now rewrite Zl, Zr).
  rewrite (preclosure_value iterP iterP_perm l r c (fun g => returned (c g)) Zl Zr).
  2:{ intros g Zg Wg. destruct (Hc g Zg Wg) as (x & E & _). now rewrite E. }
  eexists. split; [reflexivity |].
  apply sum_within.
  - apply within_floordiv; now split.
  - intros y Hy. apply in_map_iff in Hy as ([g h] & <- & Hp).
    apply filter_In in Hp as [Hp Hn]. cbn [fst snd].
    apply (proj1 (iterP_In iterP iterP_perm _ _)) in Hp.
    unfold narrower in Hn. cbn [fst snd nwidth] in Hn.
    apply andb_true_iff in Hn as [Ng Nh]. apply Nat.ltb_lt in Ng, Nh.
    destruct (psplicings_zero_free iterP iterP_perm _ Zs g h Hp) as [Zg Zh].
    pose proof (psplicings_additive iterP iterP_perm _ g h Zs Hp) as Hadd.
    cbn [nwidth] in Hadd.
    destruct (Hc g Zg Ng) as (x & Ex & Wx). destruct (Hc h Zh Nh) as (y & Ey & Wy).
    rewrite Ex, Ey. cbn [returned].
    eapply within_le; [exact Hadd | now apply within_floordiv].
Qed.

Lemma linear_system_within (c : Term -> res Term) (L R : Term) (system : LinearSystem) :
  zero_free L = true -> zero_free R = true ->
  closes_below (nwidth L + nwidth R) c ->
  linear_system iterT iterP c L R = Ok system ->
  (forall k x, vector system !! k = Some x -> within (nwidth L + nwidth R) x) /\
  (forall k x, matrix system !! k = Some x -> loosely (nwidth L + nwidth R) x).
Proof.
  intros ZL ZR Hc.
  destruct (remainders_inside iterP iterP_perm L) as (lrem & El & HLs & _).
  destruct (remainders_inside iterP iterP_perm R) as (rrem & Er & HRs & _).
  unfold linear_system. rewrite El, Er. cbn [bind].
  set (syms := tset_of
                 (flat_map (fun lprime => map (fun rprime => Parallel lprime rprime) (iterT rrem))
                    (iterT lrem))).
  assert (Hsym : forall s, In s (iterT syms) ->
            exists l r, s = Parallel l r /\ within (nwidth L) l /\ within (nwidth R) r).
  { intros s Hs. apply (proj1 (iterT_In iterT iterT_perm _ _)) in Hs.
    apply set_of_In in Hs. apply in_flat_map in Hs as (l & Hl & Hs).
    apply in_map_iff in Hs as (r & <- & Hr).
    apply (proj1 (iterT_In iterT iterT_perm _ _)) in Hl.
    apply (proj1 (iterT_In iterT iterT_perm _ _)) in Hr.
    exists l, r. split; [reflexivity |].
    split; apply remainder_space_within; auto. }
  intros H. step_bind H as vec Evec. step_bind H as mat Emat.
  injection H as <-. cbn [vector matrix]. split.
  - apply (dict_comp_inv (within (nwidth L + nwidth R)) _ _ _ _) with (2 := Evec).
    intros s x Hs. destruct (Hsym s Hs) as (l & r & -> & Wl & Wr).
    cbn [sides bind]. intros Ex. injection Ex as <-. now apply within_floordiv.
  - apply (dict_comp_inv (loosely (nwidth L + nwidth R)) _ _ _ _) with (2 := Emat).
    intros [s1 s2] x Hs. apply in_flat_map in Hs as (s1' & H1 & Hs).
    apply in_map_iff in Hs as (s2' & E' & H2). apply pair_equal_spec in E' as [-> ->].
    destruct (Hsym s1 H1) as (l1 & r1 & -> & [Zl Wl] & [Zr Wr]).
    cbn [sides bind].
    apply (sum_gen_inv (loosely (nwidth L + nwidth R)) (loosely (nwidth L + nwidth R))).
    + apply loosely_add.
    + now left.
    + intros [[g1 h1] [g2 h2]] y Hp.
      destruct (term_eq (Parallel h1 h2) s2); [| discriminate].
      apply in_flat_map in Hp as (p1 & Hp1 & Hp).
      apply in_map_iff in Hp as (p2 & E' & Hp2). apply pair_equal_spec in E' as [-> ->].
      apply (proj1 (iterP_In iterP iterP_perm _ _)) in Hp1.
      apply (proj1 (iterP_In iterP iterP_perm _ _)) in Hp2.
      destruct (ssplicings_within iterP iterP_perm l1 g1 h1 Zl Hp1) as [[Zg1 Wg1] _].
      destruct (ssplicings_within iterP iterP_perm r1 g2 h2 Zr Hp2) as [[Zg2 Wg2] _].
      destruct (preclosure_within c g1 g2 Zg1 Zg2) as (p & Ep & Wp).
      { intros g Zg Wg. apply Hc; [assumption | lia]. }
      rewrite Ep. cbn [bind]. intros Ey. injection Ey as <-.
      right. eapply within_le; [| exact Wp]. lia.
Qed.

(** What holds of every entry of the vector ([P]) and of the matrix ([Q])
    holds of every entry of the solution, when the operations of [solve]
    preserve it. *)
Lemma solve_fuel_inv (P Q : Term -> Prop) (n : nat) :
  (forall a b, Q a -> P b -> P (pow (star a) b)) ->
  (forall b a e, P b -> Q a -> P e -> P (add b (pow a e))) ->
  (forall a1 a a2 a12, Q a1 -> Q a -> Q a2 -> Q a12 ->
     Q (add (pow a1 (pow (star a) a2)) a12)) ->
  forall (system : LinearSystem) (X : gmap string Term),
  (forall k x, vector system !! k = Some x -> P x) ->
  (forall k x, matrix system !! k = Some x -> Q x) ->
  solve_fuel iterT n system = Ok X ->
  forall k x, X !! k = Some x -> P x.
Proof.
  intros Hfix Hvec Hmat.
  induction n as [|n IH]; intros system X Hv Hm H; [discriminate |].
  cbn [solve_fuel] in H.
  destruct (iterT (symbols system)) as [|elim rest]; [discriminate |].
  destruct (tset_diff (symbols system) [elim]) as [|y ys].
  - step_bind H as aee Eaee. step_bind H as be Ebe. injection H as <-.
    apply matrix_at_Ok, Hm in Eaee. apply dict_at_Ok, Hv in Ebe.
    intros k x Hk. apply lookup_singleton_Some in Hk as [_ <-].
    now apply Hfix.
  - step_bind H as subvector Esv. step_bind H as submatrix Esm.
    step_bind H as solution Esol. step_bind H as aee Eaee. step_bind H as be Ebe.
    step_bind H as total Etotal. injection H as <-.
    apply matrix_at_Ok, Hm in Eaee. apply dict_at_Ok, Hv in Ebe.
    assert (Hsol : forall k x, solution !! k = Some x -> P x).
    { apply (IH _ _) with (3 := Esol); cbn [vector matrix].
      - apply (dict_comp_inv P _ _ _ _) with (2 := Esv).
        intros v x _ Hx. step_bind Hx as bv Ebv. step_bind Hx as ave Eave.
        injection Hx as <-.
        apply dict_at_Ok, Hv in Ebv. apply matrix_at_Ok, Hm in Eave.
        now apply Hvec.
      - apply (dict_comp_inv Q _ _ _ _) with (2 := Esm).
        intros [v1 v2] x _ Hx.
        step_bind Hx as a1e Ea1e.
        step_bind Hx as ae2 Eae2. step_bind Hx as a12 Ea12. injection Hx as <-.
        apply matrix_at_Ok, Hm in Ea1e.
        apply matrix_at_Ok, Hm in Eae2. apply matrix_at_Ok, Hm in Ea12.
        now apply Hmat. }
    assert (Ht : P total).
    { apply (sum_gen_inv P (fun y => exists a e, y = pow a e /\ Q a /\ P e))
        with (4 := Etotal).
      - intros b y' Hb (a & e & -> & Ha & He). now apply Hvec.
      - exact Ebe.
      - intros v y' _ Hy. step_bind Hy as aev Eaev. step_bind Hy as xv Exv.
        injection Hy as <-.
        apply matrix_at_Ok, Hm in Eaev. apply dict_at_Ok, Hsol in Exv.
        now exists aev, xv. }
    intros k x. destruct (decide (str elim = k)) as [<- | N].
    + rewrite lookup_insert_eq. intros Ex. injection Ex as <-.
      now apply Hfix.
    + rewrite lookup_insert_ne by exact N. apply Hsol.
Qed.

Lemma solve_fuel_within (w n : nat) :
  forall (system : LinearSystem) (X : gmap string Term),
  (forall k x, vector system !! k = Some x -> within w x) ->
  (forall k x, matrix system !! k = Some x -> loosely w x) ->
  solve_fuel iterT n system = Ok X ->
  forall k x, X !! k = Some x -> within w x.
Proof.
  apply solve_fuel_inv.
  - intros a b Ha Hb. apply within_pow; [now apply within_star | exact Hb].
  - intros b a e Hb Ha He. apply within_add_loosely; [exact Hb |].
    apply loosely_pow; [exact Ha | now right].
  - intros a1 a a2 a12 H1 Ha H2 H12. apply loosely_add; [| exact H12].
    apply loosely_pow; [exact H1 |].
    apply loosely_pow; [right; now apply within_star | exact H2].
Qed.

(** A system with [Zero] everywhere has [Zero] everywhere in its
    solution. *)
Lemma solve_fuel_Zero (n : nat) :
  forall (system : LinearSystem) (X : gmap string Term),
  (forall k x, vector system !! k = Some x -> x = Zero) ->
  (forall k x, matrix system !! k = Some x -> x = Zero) ->
  solve_fuel iterT n system = Ok X ->
  forall k x, X !! k = Some x -> x = Zero.
Proof.
  apply (solve_fuel_inv (fun x => x = Zero) (fun x => x = Zero)).
  - intros a b -> ->. reflexivity.
  - intros b a e -> -> ->. reflexivity.
  - intros a1 a a2 a12 -> -> -> ->. reflexivity.
Qed.

(** The closure of a term without [Zero] returns a term without [Zero]
    that is no wider, once the fuel exceeds the width of the term. *)
Lemma closure_within (n : nat) :
  forall t, zero_free t = true -> nwidth t < n ->
  exists c, closure iterT iterP n t = Ok c /\ within (nwidth t) c.
Proof.
  induction n as [|n IHn]; intros t; [lia |].
  induction t; intros Hz Hw; cbn [zero_free nwidth] in *; try discriminate;
    try (apply andb_true_iff in Hz as [H1 H2]).
  - exists One. split; [reflexivity | apply within_One].
  - exists (Primitive letter). split; [reflexivity | now split].
  - destruct IHt1 as (a & Ea & Wa); [assumption | lia |].
    destruct IHt2 as (b & Eb & Wb); [assumption | lia |].
    rewrite closure_Choice, Ea, Eb. cbn [bind]. eexists. split; [reflexivity |].
    apply within_add; eapply within_le; try eassumption; lia.
  - destruct IHt1 as (a & Ea & Wa); [assumption | lia |].
    destruct IHt2 as (b & Eb & Wb); [assumption | lia |].
    rewrite closure_Sequential, Ea, Eb. cbn [bind]. eexists. split; [reflexivity |].
    apply within_pow; eapply within_le; try eassumption; lia.
  - clear IHt1 IHt2.
    assert (Hc : closes_below (nwidth t1 + nwidth t2) (closure iterT iterP n)).
    { intros g Zg Wg. apply IHn; [assumption | lia]. }
    destruct (linear_system_Ok iterT iterP iterT_perm iterP_perm
                (closure iterT iterP n) t1 t2 H1 H2)
      as (system & Es & Ht & Hin).
    { intros g Zg Wg. destruct (Hc g Zg Wg) as (x & Ex & _). eauto. }
    destruct (linear_system_within _ t1 t2 system H1 H2 Hc Es) as [Hv Hm].
    change (closure iterT iterP (S n) (Parallel t1 t2))
      with (let* system := linear_system iterT iterP (closure iterT iterP n) t1 t2 in
            let* solution := solve iterT system in
            dict_at solution (Parallel t1 t2)).
    rewrite Es. cbn [bind].
    assert (Hne : symbols system <> []).
    { intros C. rewrite C in Hin. discriminate. }
    destruct (solve_spec_by_size iterT iterT_perm _ system eq_refl Hne Ht)
      as (e & rest & X & _ & EX & HX & _).
    rewrite EX. cbn [bind].
    apply (mem_key term_eq str term_eq_key) in Hin.
    apply in_map_iff in Hin as (s0 & E0 & Hs0).
    destruct (HX s0 Hs0) as [x Hx]. rewrite E0 in Hx.
    unfold dict_at. rewrite Hx. cbn [lookup_or_raise]. exists x.
    split; [reflexivity |].
    exact (solve_fuel_within _ _ system X Hv Hm EX _ _ Hx).
  - destruct IHt as (a & Ea & Wa); [assumption | lia |].
    rewrite closure_Star, Ea. cbn [bind]. eexists. split; [reflexivity |].
    apply within_star. now right.
Qed.

(** X11: on a term in which [Zero] does not occur, with fuel above its
    width, [closure] returns a term in which [Zero] does not occur and
    that is no wider than the term; so the closure of that result returns
    as well. *)
Theorem closure_returns (n : nat) (t : Term)
    (Hzero : zero_free t = true) (Hfuel : nwidth t < n) :
  exists c c',
    closure iterT iterP n t = Ok c /\
    zero_free c = true /\ nwidth c <= nwidth t /\
    width c = Ok (nwidth c) /\
    closure iterT iterP n c = Ok c'.
Proof.
  destruct (closure_within n t Hzero Hfuel) as (c & Ec & Zc & Wc).
  destruct (closure_within n c Zc) as (c' & Ec' & _); [lia |].
  exists c, c'. repeat split; try assumption.
  now apply width_zero_free.
Qed.

(** X12: for a parallel term [Parallel(L, R)] in which [Zero] does not
    occur, with fuel at least its width, [linear_system] returns a system
    whose symbols are a set that holds [Parallel(L, R)], whose matrix has an
    entry for every pair of symbols and whose vector has an entry for every
    symbol; [solve] then returns a solution defined on [Parallel(L, R)], so
    no lookup raises [KeyError]. *)
Theorem linear_system_total (n : nat) (L R : Term)
    (HL : zero_free L = true) (HR : zero_free R = true)
    (Hfuel : nwidth L + nwidth R <= n) :
  exists system X x,
    linear_system iterT iterP (closure iterT iterP n) L R = Ok system /\
    total_system system /\
    tmem (Parallel L R) (symbols system) = true /\
    solve iterT system = Ok X /\
    dict_at X (Parallel L R) = Ok x.
Proof.
  destruct (linear_system_Ok iterT iterP iterT_perm iterP_perm
              (closure iterT iterP n) L R HL HR)
    as (system & Es & Ht & Hin).
  { intros g Zg Wg.
    destruct (closure_within n g Zg) as (x & Ex & _); [lia | eauto]. }
  assert (Hne : symbols system <> []).
  { intros C. rewrite C in Hin. discriminate. }
  destruct (solve_spec_by_size iterT iterT_perm _ system eq_refl Hne Ht)
    as (e & rest & X & _ & EX & HX & _).
  pose proof Hin as Hin'.
  apply (mem_key term_eq str term_eq_key) in Hin'.
  apply in_map_iff in Hin' as (s0 & E0 & Hs0).
  destruct (HX s0 Hs0) as [x Hx]. rewrite E0 in Hx.
  exists system, X, x.
  split; [exact Es |]. split; [exact Ht |]. split; [exact Hin |].
  split; [exact EX |].
  unfold dict_at. now rewrite Hx.
Qed.

Lemma iterP_nil : iterP [] = [].
Proof. apply Permutation_nil, Permutation_sym, iterP_perm. Qed.

(** The linear system of a parallel term with [Zero] as an operand: no
    preclosure is computed, and every entry is [Zero]. *)
Lemma linear_system_Zero (c : Term -> res Term) (L R : Term) :
  L = Zero \/ R = Zero ->
  exists system,
    linear_system iterT iterP c L R = Ok system /\
    total_system system /\
    tmem (Parallel L R) (symbols system) = true /\
    (forall k x, vector system !! k = Some x -> x = Zero) /\
    (forall k x, matrix system !! k = Some x -> x = Zero).
Proof.
  intros HZ.
  destruct (remainders_inside iterP iterP_perm L) as (lrem & El & HLs & _ & HLin & _).
  destruct (remainders_inside iterP iterP_perm R) as (rrem & Er & HRs & _ & HRin & _).
  unfold linear_system. rewrite El, Er. cbn [bind].
  set (syms := tset_of
                 (flat_map (fun lprime => map (fun rprime => Parallel lprime rprime) (iterT rrem))
                    (iterT lrem))).
  assert (Hsym : forall s, In s (iterT syms) ->
            exists l r, s = Parallel l r /\ (l = Zero \/ r = Zero)).
  { intros s Hs. apply (proj1 (iterT_In iterT iterT_perm _ _)) in Hs.
    apply set_of_In in Hs. apply in_flat_map in Hs as (l & Hl & Hs).
    apply in_map_iff in Hs as (r & <- & Hr).
    apply (proj1 (iterT_In iterT iterT_perm _ _)) in Hl.
    apply (proj1 (iterT_In iterT iterT_perm _ _)) in Hr.
    exists l, r. split; [reflexivity |].
    destruct HZ as [-> | ->].
    - left. apply HLs in Hl. destruct Hl as [<- | []]. reflexivity.
    - right. apply HRs in Hr. destruct Hr as [<- | []]. reflexivity. }
  assert (Hvec : forall s x, In s (iterT syms) ->
            (let* (l, r) := sides s in Ok (floordiv l r)) = Ok x -> x = Zero).
  { intros s x Hs. destruct (Hsym s Hs) as (l & r & -> & [-> | ->]);
      cbn [sides bind]; intros Ex; injection Ex as <-; apply floordiv_Zero. }
  destruct (dict_comp_total str
              (fun symbol => let* (l, r) := sides symbol in Ok (floordiv l r))
              (iterT syms)) as (vec & Ev & Hv).
  { intros s Hs. destruct (Hsym s Hs) as (l & r & -> & _). cbn. eauto. }
  rewrite Ev. cbn [bind].
  match goal with
  | |- context [dict_comp ?k ?f ?items] =>
      assert (Hmat : forall v, In v items -> f v = Ok Zero);
      [| destruct (dict_comp_total k f items) as (mat & Em & Hm);
         [intros v Hin; rewrite (Hmat v Hin); eauto |]]
  end.
  { intros [s1 s2] Hs. apply in_flat_map in Hs as (s1' & H1 & Hs).
    apply in_map_iff in Hs as (s2' & E & H2). apply pair_equal_spec in E as [-> ->].
    destruct (Hsym s1 H1) as (l1 & r1 & -> & [-> | ->]); cbn [sides bind].
    - cbn [ssplicings]. rewrite iterP_nil. reflexivity.
    - cbn [ssplicings]. rewrite iterP_nil.
      match goal with
      | |- sum_gen _ ?items _ = _ =>
          assert (Hnil : items = []); [| rewrite Hnil; reflexivity]
      end.
      induction (iterP (ssplicings iterP l1)) as [|gh ghs IH];
        [reflexivity | exact IH]. }
  rewrite Em. cbn [bind]. eexists. split; [reflexivity |].
  cbn [symbols matrix vector]. split; [| split; [| split]].
  - constructor; cbn [symbols matrix vector].
    + apply (set_of_NoDup term_eq str term_eq_key).
    + intros s1 s2 H1 H2. apply (Hm (s1, s2)).
      apply in_flat_map. exists s1.
      split; [now apply (iterT_In iterT iterT_perm) |].
      apply in_map. now apply (iterT_In iterT iterT_perm).
    + intros s0 H1. apply Hv. now apply (iterT_In iterT iterT_perm).
  - unfold syms. rewrite (set_of_mem term_eq str term_eq_key).
    apply (mem_In term_eq str term_eq_key).
    apply in_flat_map. exists L. split; [now apply (iterT_In iterT iterT_perm) |].
    apply in_map. now apply (iterT_In iterT iterT_perm).
  - apply (dict_comp_inv (fun x => x = Zero) _ _ _ _) with (2 := Ev).
    intros s x Hs Hx. exact (Hvec s x Hs Hx).
  - apply (dict_comp_inv (fun x => x = Zero) _ _ _ _) with (2 := Em).
    intros v x Hin Hx. rewrite (Hmat v Hin) in Hx. now injection Hx as <-.
Qed.

Lemma closure_Zero_side (n : nat) (L R : Term) :
  L = Zero \/ R = Zero -> closure iterT iterP (S n) (Parallel L R) = Ok Zero.
Proof.
  intros HZ.
  destruct (linear_system_Zero (closure iterT iterP n) L R HZ)
    as (system & Es & Ht & Hin & Hv & Hm).
  change (closure iterT iterP (S n) (Parallel L R))
    with (let* system := linear_system iterT iterP (closure iterT iterP n) L R in
          let* solution := solve iterT system in
          dict_at solution (Parallel L R)).
  rewrite Es. cbn [bind].
  assert (Hne : symbols system <> []).
  { intros C. rewrite C in Hin. discriminate. }
  destruct (solve_spec_by_size iterT iterT_perm _ system eq_refl Hne Ht)
    as (e & rest & X & _ & EX & HX & _).
  rewrite EX. cbn [bind].
  apply (mem_key term_eq str term_eq_key) in Hin.
  apply in_map_iff in Hin as (s0 & E0 & Hs0).
  destruct (HX s0 Hs0) as [x Hx]. rewrite E0 in Hx.
  unfold dict_at. rewrite Hx. cbn [lookup_or_raise].
  now rewrite (solve_fuel_Zero _ system X Hv Hm EX _ _ Hx).
Qed.

(** X13: a parallel term with [Zero] as its left or right operand has no
    width, [width] raises [TypeError] on it, and yet its closure returns,
    with any fuel above zero and whatever the other operand is: the linear
    system holds [Zero] only, and the closure is [Zero]. *)
Theorem closure_Zero_operand (n : nat) (t : Term) :
  closure iterT iterP (S n) (Parallel Zero t) = Ok Zero /\
  closure iterT iterP (S n) (Parallel t Zero) = Ok Zero /\
  width (Parallel Zero t) = Raise TypeError /\
  width (Parallel t Zero) = Raise TypeError.
Proof.
  split; [| split; [| split]].
  - apply closure_Zero_side. now left.
  - apply closure_Zero_side. now right.
  - apply width_with_Zero. reflexivity.
  - apply width_with_Zero. cbn [zero_free]. apply andb_false_r.
Qed.

End ClosureResultFacts.

Lemma closure_returns_witness :
  exists c c',
    closure id_iterT id_iterP 3 (Parallel (Primitive "a") (Primitive "b")) = Ok c /\
    zero_free c = true /\ nwidth c <= 2 /\
    width c = Ok (nwidth c) /\
    closure id_iterT id_iterP 3 c = Ok c'.
Proof.
  apply (closure_returns id_iterT id_iterP id_iterT_perm id_iterP_perm 3
           (Parallel (Primitive "a") (Primitive "b"))).
  - reflexivity.
  - cbn. lia.
Defined.

Lemma linear_system_total_witness :
  exists system X x,
    linear_system id_iterT id_iterP (closure id_iterT id_iterP 2)
      (Primitive "a") (Primitive "b") = Ok system /\
    total_system system /\
    tmem (Parallel (Primitive "a") (Primitive "b")) (symbols system) = true /\
    solve id_iterT system = Ok X /\
    dict_at X (Parallel (Primitive "a") (Primitive "b")) = Ok x.
Proof.
  apply (linear_system_total id_iterT id_iterP id_iterT_perm id_iterP_perm 2
           (Primitive "a") (Primitive "b")).
  - reflexivity.
  - reflexivity.
  - cbn. lia.
Defined.

Lemma closure_Zero_operand_witness :
  closure id_iterT id_iterP 1 (Parallel Zero (Primitive "a")) = Ok Zero /\
  closure id_iterT id_iterP 1 (Parallel (Primitive "a") Zero) = Ok Zero /\
  width (Parallel Zero (Primitive "a")) = Raise TypeError /\
  width (Parallel (Primitive "a") Zero) = Raise TypeError.
Proof.
  apply (closure_Zero_operand id_iterT id_iterP id_iterT_perm id_iterP_perm 0
           (Primitive "a")).
Defined.

(** ** The errors of [solve] *)

(** The computation returns, or raises [KeyError]. *)
Definition only_KeyError {A : Type} (m : res A) : Prop :=
  (exists x, m = Ok x) \/ m = Raise KeyError.

Lemma only_KeyError_bind {A B : Type} (m : res A) (k : A -> res B) :
  only_KeyError m -> (forall x, m = Ok x -> only_KeyError (k x)) ->
  only_KeyError (bind m k).
Proof.
  intros [[x ->] | ->] Hk; cbn [bind].
  - now apply Hk.
  - now right.
Qed.

Lemma only_KeyError_lookup {A : Type} (o : option A) : only_KeyError (lookup_or_raise o).
Proof. destruct o; [left; eauto | now right]. Qed.

Lemma only_KeyError_dict_comp {A K : Type} `{Countable K} (key : A -> K)
    (f : A -> res Term) (items : list A) :
  (forall v, In v items -> only_KeyError (f v)) ->
  only_KeyError (dict_comp key f items).
Proof.
  unfold dict_comp.
  assert (Hacc : only_KeyError (Ok (∅ : gmap K Term))) by (left; eauto).
  revert Hacc. generalize (Ok (∅ : gmap K Term)).
  induction items as [|v items IH]; intros acc Hacc Hf; cbn [fold_left].
  - exact Hacc.
  - apply IH; [| intros w Hw; apply Hf; now right].
    apply only_KeyError_bind; [exact Hacc |]. intros d _.
    apply only_KeyError_bind; [apply Hf; now left |]. intros x _. left. eauto.
Qed.

Lemma only_KeyError_sum_gen {A : Type} (f : A -> res (option Term)) (items : list A)
    (start : Term) :
  (forall v, In v items -> only_KeyError (f v)) ->
  only_KeyError (sum_gen f items start).
Proof.
  unfold sum_gen.
  assert (Hacc : only_KeyError (Ok start)) by (left; eauto).
  revert Hacc. generalize (Ok start).
  induction items as [|v items IH]; intros acc Hacc Hf; cbn [fold_left].
  - exact Hacc.
  - apply IH; [| intros w Hw; apply Hf; now right].
    apply only_KeyError_bind; [exact Hacc |]. intros a _.
    apply only_KeyError_bind; [apply Hf; now left |]. intros [y|] _; left; eauto.
Qed.

(** A comprehension over at least one item raises when computing every
    item raises. *)
Lemma dict_comp_raises {A K : Type} `{Countable K} (key : A -> K)
    (f : A -> res Term) (items : list A) (e : error) :
  items <> [] -> (forall v, In v items -> f v = Raise e) ->
  dict_comp key f items = Raise e.
Proof.
  unfold dict_comp. destruct items as [|v items]; [congruence |].
  intros _ Hf. cbn [fold_left]. rewrite (Hf v) by now left. cbn [bind].
  clear Hf. induction items as [|w items IH]; cbn [fold_left bind]; [reflexivity | exact IH].
Qed.

Lemma filter_length_lt {A : Type} (f : A -> bool) (l : list A) (x : A) :
  In x l -> f x = false -> length (List.filter f l) < length l.
Proof.
  intros Hx Hf. induction l as [|a l IH]; [destruct Hx |].
  cbn [List.filter length]. pose proof (filter_length_le f l) as Hle.
  destruct Hx as [-> | Hx].
  - rewrite Hf. lia.
  - specialize (IH Hx). destruct (f a); cbn [length]; lia.
Qed.

Section SolveErrors.
Variable iterT : list Term -> list Term.
Hypothesis iterT_perm : forall l, Permutation (iterT l) l.

Lemma iterT_cons (l : list Term) : l <> [] -> exists elim rest, iterT l = elim :: rest.
Proof.
  intros Hne. destruct (iterT l) as [|elim rest] eqn:E; [| eauto].
  exfalso. apply Hne. pose proof (iterT_perm l) as P. rewrite E in P.
  now apply Permutation_nil in P.
Qed.

Lemma solve_fuel_only_KeyError (n : nat) :
  forall system, symbols system <> [] -> length (symbols system) <= n ->
  only_KeyError (solve_fuel iterT n system).
Proof.
  induction n as [|n IH]; intros system Hne Hlen.
  - destruct (symbols system); [congruence | cbn in Hlen; lia].
  - cbn [solve_fuel].
    destruct (iterT_cons (symbols system) Hne) as (elim & rest & E). rewrite E.
    assert (He : In elim (symbols system)).
    { apply (iterT_In iterT iterT_perm). rewrite E. now left. }
    assert (Hlt : length (tset_diff (symbols system) [elim]) < length (symbols system)).
    { apply (filter_length_lt _ _ elim He). cbn. now rewrite term_eq_refl. }
    destruct (tset_diff (symbols system) [elim]) as [|y ys] eqn:R.
    + apply only_KeyError_bind; [apply only_KeyError_lookup |]. intros aee _.
      apply only_KeyError_bind; [apply only_KeyError_lookup |]. intros be _.
      left. eauto.
    + apply only_KeyError_bind.
      { apply only_KeyError_dict_comp. intros v _.
        apply only_KeyError_bind; [apply only_KeyError_lookup |]. intros bv _.
        apply only_KeyError_bind; [apply only_KeyError_lookup |]. intros ave _.
        apply only_KeyError_bind; [apply only_KeyError_lookup |]. intros be _.
        left. eauto. }
      intros subvector _. apply only_KeyError_bind.
      { apply only_KeyError_dict_comp. intros [v1 v2] _.
        apply only_KeyError_bind; [apply only_KeyError_lookup |]. intros a1e _.
        apply only_KeyError_bind; [apply only_KeyError_lookup |]. intros aee _.
        apply only_KeyError_bind; [apply only_KeyError_lookup |]. intros ae2 _.
        apply only_KeyError_bind; [apply only_KeyError_lookup |]. intros a12 _.
        left. eauto. }
      intros submatrix _. apply only_KeyError_bind.
      { apply IH; cbn [symbols]; [discriminate | lia]. }
      intros solution _.
      apply only_KeyError_bind; [apply only_KeyError_lookup |]. intros aee _.
      apply only_KeyError_bind; [apply only_KeyError_lookup |]. intros be _.
      apply only_KeyError_bind.
      { apply only_KeyError_sum_gen. intros v _.
        apply only_KeyError_bind; [apply only_KeyError_lookup |]. intros aev _.
        apply only_KeyError_bind; [apply only_KeyError_lookup |]. intros xv _.
        left. eauto. }
      intros total _. left. eauto.
Qed.

(** X14: on a system with at least one symbol, whatever its matrix and
    its vector hold, [solve] returns a solution or raises [KeyError], and
    nothing else; when the matrix has no entry for the pair of the symbol
    eliminated first with itself, it raises [KeyError], with one symbol as
    with many. *)
Theorem solve_raises_KeyError (system : LinearSystem) (elim : Term) (rest : list Term)
    (Hfirst : iterT (symbols system) = elim :: rest) :
  only_KeyError (solve iterT system) /\
  (matrix system !! (str elim, str elim) = None ->
   solve iterT system = Raise KeyError).
Proof.
  assert (Hne : symbols system <> []).
  { intros C. rewrite C in Hfirst. pose proof (iterT_perm []) as P.
    rewrite Hfirst in P. apply Permutation_sym, Permutation_nil in P. discriminate. }
  split.
  - unfold solve. apply solve_fuel_only_KeyError; [exact Hne | lia].
  - intros Hmissing. unfold solve.
    destruct (symbols system) as [|s0 ss] eqn:S; [congruence |].
    cbn [length solve_fuel]. rewrite S, Hfirst.
    destruct (tset_diff (s0 :: ss) [elim]) as [|y ys] eqn:R.
    + unfold matrix_at. rewrite Hmissing. reflexivity.
    + match goal with
      | |- bind ?m _ = _ =>
          assert (Hsv : only_KeyError m);
          [| destruct Hsv as [[subvector ->] | ->]; cbn [bind]; [| reflexivity]]
      end.
      { apply only_KeyError_dict_comp. intros v _.
        apply only_KeyError_bind; [apply only_KeyError_lookup |]. intros bv _.
        apply only_KeyError_bind; [apply only_KeyError_lookup |]. intros ave _.
        apply only_KeyError_bind; [apply only_KeyError_lookup |]. intros be _.
        left. eauto. }
      match goal with
      | |- bind (dict_comp ?k ?f ?items) _ = _ =>
          rewrite (dict_comp_raises k f items KeyError); [reflexivity | |]
      end.
      * destruct (iterT_cons (y :: ys)) as (v & vs & ->); [discriminate |].
        cbn. discriminate.
      * intros [v1 v2] _. unfold matrix_at. rewrite Hmissing.
        destruct (matrix system !! (str v1, str elim)); reflexivity.
Qed.

(** X16: [solve] raises [StopIteration] exactly on a system that has no
    symbol, where [next(iter(self.symbols))] finds nothing. *)
Theorem solve_StopIteration (system : LinearSystem) :
  solve iterT system = Raise StopIteration <-> symbols system = [].
Proof.
  split.
  - intros Hraise. destruct (symbols system) as [|s0 ss] eqn:S; [reflexivity |].
    exfalso.
    destruct (solve_fuel_only_KeyError (Datatypes.S (length (symbols system))) system)
      as [[X HX] | HK].
    + rewrite S. discriminate.
    + lia.
    + unfold solve in Hraise. rewrite Hraise in HX. discriminate HX.
    + unfold solve in Hraise. rewrite Hraise in HK. discriminate HK.
  - intros Hempty. unfold solve. rewrite Hempty. cbn [length solve_fuel].
    rewrite Hempty.
    assert (Hnil : iterT [] = []).
    { apply Permutation_nil, Permutation_sym, iterT_perm. }
    rewrite Hnil. reflexivity.
Qed.

End SolveErrors.

Lemma solve_raises_KeyError_witness :
  let system := mkLinearSystem [Primitive "a"; Primitive "b"] ∅ ∅ in
  only_KeyError (solve id_iterT system) /\
  (matrix system !! (str (Primitive "a"), str (Primitive "a")) = None ->
   solve id_iterT system = Raise KeyError).
Proof.
  apply (solve_raises_KeyError id_iterT id_iterT_perm
           (mkLinearSystem [Primitive "a"; Primitive "b"] ∅ ∅)
           (Primitive "a") [Primitive "b"]).
  reflexivity.
Defined.

Lemma solve_StopIteration_witness :
  solve id_iterT (mkLinearSystem [] ∅ ∅) = Raise StopIteration <->
  symbols (mkLinearSystem [] ∅ ∅) = [].
Proof.
  apply (solve_StopIteration id_iterT id_iterT_perm (mkLinearSystem [] ∅ ∅)).
Defined.
